(** * SLA monitoring dashboard: the data pipeline of [js/app.js]

    A shallow embedding of the class [SLAMonitoringApp]: ingestion of the
    decoded payload ([loadData]), derivation of the two metrics
    ([processData], [parseDate]), the filter ([applyFilters]), the sort
    ([sortTable]), the summary ([updateStatistics]) and the export
    ([exportToCSV]).  The DOM is left out: an operation takes the values
    it reads from the page as arguments and returns the values it would
    write there.  The last part covers the rest of the two files: the
    [ConfigManager] of [config.js] over a model of [localStorage], and
    [init], [saveConfiguration], [clearFilters], [getSLAClass] and
    [escapeHtml].

    Conventions of the embedding.
    - A JavaScript number is [NaN], an infinity or an exact rational
      ([Qc]): the rounding of binary64 arithmetic and the sign of zero are
      not modelled.
    - A JavaScript string is a [string] of 8-bit code units; only the ASCII
      white space and the ASCII letters are given their special meaning.
    - An exception is a value of [exn]; code that can throw returns a
      [result].
    - What the language leaves to the engine (the time zone, the fallback
      of [Date.parse], the digits of [Number::toString]) is a [Host]. *)

From Stdlib Require Import ZArith QArith Qcanon Qround Qabs Lia Lqa.
From Stdlib Require Import Ascii String List Sorted Permutation.
From stdpp Require Import base decidable option list sorting strings countable gmap.

Local Open Scope string_scope.
Local Open Scope Z_scope.

(** ** Numbers *)

Module Num.

Inductive number : Type :=
| NaN
| NegInf
| Fin (q : Qc)
| PosInf.

#[global] Instance number_eq_dec : EqDecision number.
Proof. solve_decision. Defined.

Definition of_Z (z : Z) : number := Fin (Qc_of_Z z).
Definition of_nat (n : nat) : number := of_Z (Z.of_nat n).

Definition zero : number := of_Z 0.

Definition Qc_ltb (x y : Qc) : bool :=
  match (x ?= y)%Qc with Lt => true | _ => false end.

Definition Qc_sgn (x : Qc) : comparison := (x ?= Qc_of_Z 0)%Qc.

(** [a < b] on numbers: false as soon as an operand is [NaN]. *)
Definition ltb (a b : number) : bool :=
  match a, b with
  | NaN, _ | _, NaN => false
  | NegInf, NegInf => false
  | NegInf, _ => true
  | Fin _, NegInf => false
  | Fin x, Fin y => Qc_ltb x y
  | Fin _, PosInf => true
  | PosInf, _ => false
  end.

(** [a > b] is [b < a]. *)
Definition gtb (a b : number) : bool := ltb b a.

Definition isNaN (a : number) : bool :=
  match a with NaN => true | _ => false end.

(** ToBoolean on a number: [NaN] and zero are falsy. *)
Definition truthy (a : number) : bool :=
  match a with
  | NaN => false
  | Fin q => negb (bool_decide (q = Qc_of_Z 0))
  | _ => true
  end.

Definition neg (a : number) : number :=
  match a with
  | NaN => NaN
  | NegInf => PosInf
  | Fin q => Fin (- q)%Qc
  | PosInf => NegInf
  end.

Definition add (a b : number) : number :=
  match a, b with
  | NaN, _ | _, NaN => NaN
  | PosInf, NegInf | NegInf, PosInf => NaN
  | PosInf, _ | _, PosInf => PosInf
  | NegInf, _ | _, NegInf => NegInf
  | Fin x, Fin y => Fin (x + y)%Qc
  end.

Definition sub (a b : number) : number := add a (neg b).

(** The infinity that has the sign [s], and [NaN] for [Eq]. *)
Definition inf_of_sign (s : comparison) : number :=
  match s with Lt => NegInf | Eq => NaN | Gt => PosInf end.

Definition sign_mul (s t : comparison) : comparison :=
  match s, t with
  | Eq, _ | _, Eq => Eq
  | Lt, Lt | Gt, Gt => Gt
  | _, _ => Lt
  end.

Definition sign_of (a : number) : comparison :=
  match a with
  | NaN => Eq
  | NegInf => Lt
  | Fin q => Qc_sgn q
  | PosInf => Gt
  end.

Definition mul (a b : number) : number :=
  match a, b with
  | NaN, _ | _, NaN => NaN
  | Fin x, Fin y => Fin (x * y)%Qc
  | _, _ => inf_of_sign (sign_mul (sign_of a) (sign_of b))
  end.

(** Division; a zero divisor is taken as [+0]. *)
Definition div (a b : number) : number :=
  match a, b with
  | NaN, _ | _, NaN => NaN
  | Fin x, Fin y =>
      if bool_decide (y = Qc_of_Z 0) then inf_of_sign (Qc_sgn x)
      else Fin (x / y)%Qc
  | Fin _, _ => zero
  | _, Fin y =>
      inf_of_sign (sign_mul (sign_of a)
                     (match Qc_sgn y with Eq => Gt | s => s end))
  | _, _ => NaN
  end.

(** [Math.ceil]. *)
Definition ceil (a : number) : number :=
  match a with
  | Fin q => of_Z (Qceiling q)
  | _ => a
  end.

(** [x || 0] on a number. *)
Definition or_zero (a : number) : number :=
  if truthy a then a else zero.

End Num.

Export Num.

(** Closed equations between values that hold rationals are settled by
    running the decision procedure of the equality. *)
Ltac run_eq :=
  match goal with
  | |- ?x = ?y =>
      apply (bool_decide_eq_true_1 (x = y)); vm_compute; reflexivity
  end.

(** Closed decidable statements are settled by running their decision
    procedure. *)
Ltac run_decide :=
  match goal with
  | |- ?P => apply (bool_decide_eq_true_1 P); vm_compute; reflexivity
  end.

(** ** Strings *)

Module Str.

Definition code (c : ascii) : Z := Z.of_N (N_of_ascii c).

(** The ASCII part of StrWhiteSpaceChar: TAB, LF, VT, FF, CR and SP. *)
Definition is_space (c : ascii) : bool :=
  let n := code c in ((9 <=? n) && (n <=? 13)) || (n =? 32).

Definition dec_digit (c : ascii) : option Z :=
  let n := code c in
  if (48 <=? n) && (n <=? 57) then Some (n - 48) else None.

Definition hex_digit (c : ascii) : option Z :=
  let n := code c in
  if (48 <=? n) && (n <=? 57) then Some (n - 48)
  else if (97 <=? n) && (n <=? 102) then Some (n - 87)
  else if (65 <=? n) && (n <=? 70) then Some (n - 55)
  else None.

Definition digit_below (radix : Z) (c : ascii) : option Z :=
  match dec_digit c with
  | Some d => if d <? radix then Some d else None
  | None => None
  end.

(** The longest prefix of digits, as their values, and what follows. *)
Fixpoint take_digits (dv : ascii -> option Z) (cs : list ascii)
  : list Z * list ascii :=
  match cs with
  | [] => ([], [])
  | c :: r =>
      match dv c with
      | Some d => let '(ds, r') := take_digits dv r in (d :: ds, r')
      | None => ([], cs)
      end
  end.

Definition digits_value (radix : Z) (ds : list Z) : Z :=
  fold_left (fun acc d => acc * radix + d) ds 0.

Fixpoint trim_start (cs : list ascii) : list ascii :=
  match cs with
  | c :: r => if is_space c then trim_start r else cs
  | [] => []
  end.

Definition trim (cs : list ascii) : list ascii :=
  rev (trim_start (rev (trim_start cs))).

(** An optional sign: [true] for a minus. *)
Definition strip_sign (cs : list ascii) : bool * list ascii :=
  match cs with
  | "-"%char :: r => (true, r)
  | "+"%char :: r => (false, r)
  | _ => (false, cs)
  end.

Fixpoint strip_prefix (p cs : list ascii) : option (list ascii) :=
  match p, cs with
  | [], _ => Some cs
  | a :: p', c :: r => if Ascii.eqb a c then strip_prefix p' r else None
  | _ :: _, [] => None
  end.

Definition chars (s : string) : list ascii := list_ascii_of_string s.

(** [s.split(sep)] for a separator of one character. *)
Fixpoint split_chars (sep : ascii) (cur : list ascii) (cs : list ascii)
  : list string :=
  match cs with
  | [] => [string_of_list_ascii (rev cur)]
  | c :: r =>
      if Ascii.eqb c sep
      then string_of_list_ascii (rev cur) :: split_chars sep [] r
      else split_chars sep (c :: cur) r
  end.

Definition split (sep : ascii) (s : string) : list string :=
  split_chars sep [] (chars s).

(** [l.join(sep)]. *)
Fixpoint join (sep : string) (l : list string) : string :=
  match l with
  | [] => ""
  | [x] => x
  | x :: r => x +:+ sep +:+ join sep r
  end.

(** [s.toLowerCase()], on the ASCII letters. *)
Definition lower_char (c : ascii) : ascii :=
  let n := code c in
  if (65 <=? n) && (n <=? 90) then ascii_of_N (Z.to_N (n + 32)) else c.

Fixpoint toLowerCase (s : string) : string :=
  match s with
  | EmptyString => EmptyString
  | String c r => String (lower_char c) (toLowerCase r)
  end.

(** [s.includes(needle)]. *)
Fixpoint includes (s needle : string) : bool :=
  String.prefix needle s ||
  match s with
  | EmptyString => false
  | String _ r => includes r needle
  end.

(** String comparison [a < b]: lexicographic on the code units. *)
Definition ltb (a b : string) : bool :=
  match String.compare a b with Lt => true | _ => false end.

End Str.

(** ** Parsing numbers out of strings *)

Module Parse.
Import Str.

Definition pow10 (k : Z) : Qc :=
  if 0 <=? k then Qc_of_Z (10 ^ k)
  else Q2Qc (1 # Z.to_pos (10 ^ (- k))).

Definition signed (minus : bool) (z : Z) : Z := if minus then - z else z.

(** [parseInt(s)] with no radix: leading white space, a sign, an optional
    [0x], then the longest run of digits; [NaN] when there is none. *)
Definition parseInt (s : string) : number :=
  let '(minus, cs) := strip_sign (trim_start (chars s)) in
  let '(radix, dv, cs) :=
    match cs with
    | "0"%char :: "x"%char :: r | "0"%char :: "X"%char :: r =>
        (16, hex_digit, r)
    | _ => (10, dec_digit, cs)
    end in
  match take_digits dv cs with
  | ([], _) => NaN
  | (ds, _) => Num.of_Z (signed minus (digits_value radix ds))
  end.

(** An exponent part [e], [e+] or [e-] followed by digits; it is part of
    the literal only when a digit follows. *)
Definition exponent_part (cs : list ascii) : Z * list ascii :=
  match cs with
  | c :: r =>
      if Ascii.eqb c "e" || Ascii.eqb c "E" then
        let '(minus, r1) := strip_sign r in
        match take_digits dec_digit r1 with
        | ([], _) => (0, cs)
        | (ds, r2) => (signed minus (digits_value 10 ds), r2)
        end
      else (0, cs)
  | [] => (0, cs)
  end.

(** The longest prefix that is a StrUnsignedDecimalLiteral other than
    [Infinity]: its value and what follows it. *)
Definition unsigned_decimal (cs : list ascii) : option (Qc * list ascii) :=
  let '(ip, r1) := take_digits dec_digit cs in
  let '(fp, r2) :=
    match r1 with
    | "."%char :: r =>
        match ip, take_digits dec_digit r with
        | [], ([], _) => ([], r1)
        | _, res => res
        end
    | _ => ([], r1)
    end in
  match ip, fp with
  | [], [] => None
  | _, _ =>
      let '(e, r3) := exponent_part r2 in
      Some ((Qc_of_Z (digits_value 10 (ip ++ fp))
             * pow10 (e - Z.of_nat (List.length fp)))%Qc, r3)
  end.

(** The longest prefix that is a StrDecimalLiteral. *)
Definition decimal_literal (cs : list ascii) : option (number * list ascii) :=
  let '(minus, r) := strip_sign cs in
  match strip_prefix (chars "Infinity") r with
  | Some r' => Some (if minus then NegInf else PosInf, r')
  | None =>
      match unsigned_decimal r with
      | Some (q, r') => Some (Fin (if minus then - q else q)%Qc, r')
      | None => None
      end
  end.

(** [parseFloat(s)] on a string. *)
Definition parseFloat_string (s : string) : number :=
  match decimal_literal (trim_start (chars s)) with
  | Some (n, _) => n
  | None => NaN
  end.

(** A whole string of digits in the given radix. *)
Definition radix_literal (radix : Z) (dv : ascii -> option Z)
    (cs : list ascii) : number :=
  match take_digits dv cs with
  | (_ :: _ as ds, []) => Num.of_Z (digits_value radix ds)
  | _ => NaN
  end.

(** StringToNumber: the whole string, white space trimmed, must be a
    numeric literal; the empty string is 0. *)
Definition StringToNumber (s : string) : number :=
  match trim (chars s) with
  | [] => Num.zero
  | "0"%char :: "x"%char :: r | "0"%char :: "X"%char :: r =>
      radix_literal 16 hex_digit r
  | "0"%char :: "o"%char :: r | "0"%char :: "O"%char :: r =>
      radix_literal 8 (digit_below 8) r
  | "0"%char :: "b"%char :: r | "0"%char :: "B"%char :: r =>
      radix_literal 2 (digit_below 2) r
  | cs =>
      match decimal_literal cs with
      | Some (n, []) => n
      | _ => NaN
      end
  end.

End Parse.

Export Parse.

(** ** Values, exceptions and the host *)

(** The primitive values a decoded JSON record can hold in a property, and
    [undefined] for a property that is absent. *)
Inductive prim : Type :=
| PUndefined
| PNull
| PBool (b : bool)
| PNum (n : number)
| PStr (s : string).

#[global] Instance prim_eq_dec : EqDecision prim.
Proof. solve_decision. Defined.

(** A decoded JSON object whose properties hold primitives: its own
    properties, each name once, in order. *)
Definition object : Type := list (string * prim).

(** [o[k]] or [o.k]: the first property of that name, else [undefined]. *)
Fixpoint prop (o : object) (k : string) : prim :=
  match o with
  | [] => PUndefined
  | (k', v) :: r => if String.eqb k' k then v else prop r k
  end.

(** The decoded response body: a primitive, an array of records (objects
    whose properties hold primitives), or any other object. *)
#[warnings="-register-all"]
Inductive payload : Type :=
| PScalar (p : prim)
| PArray (items : list object)
| PObject (props : list (string * payload)).

Inductive exn : Type :=
| TypeError (msg : string).

Inductive res (A : Type) : Type :=
| Ok (a : A)
| Throw (e : exn).
Arguments Ok {A} a.
Arguments Throw {A} e.

#[global] Instance exn_eq_dec : EqDecision exn.
Proof. solve_decision. Defined.
#[global] Instance res_eq_dec {A : Type} `{EqDecision A} : EqDecision (res A).
Proof. solve_decision. Defined.

#[global] Instance res_fmap : FMap res := fun A B f m =>
  match m with
  | Ok a => Ok (f a)
  | Throw e => Throw e
  end.
#[global] Instance res_ret : MRet res := fun A a => Ok a.
#[global] Instance res_bind : MBind res := fun A B k m =>
  match m with
  | Ok a => k a
  | Throw e => Throw e
  end.

(** [l.map(f)] and [l.filter(f)] with a callback that can throw: the
    elements are visited from the left and the first exception ends the
    call. *)
Fixpoint map_res {A B : Type} (f : A -> res B) (l : list A) : res (list B) :=
  match l with
  | [] => Ok []
  | x :: r => y ← f x; ys ← map_res f r; Ok (y :: ys : list B)
  end.

Fixpoint filter_res {A : Type} (f : A -> res bool) (l : list A)
  : res (list A) :=
  match l with
  | [] => Ok []
  | x :: r =>
      b ← f x; ys ← filter_res f r;
      Ok (if b : bool then x :: ys else ys)
  end.

(** What ECMAScript leaves to the engine and its environment. *)
Class Host : Type := {
  (** offset of the local time zone, in ms, at the local time [t] *)
  LocalTZA : Z -> Z;
  (** [Date.parse]: a time value, or [None] for [NaN] *)
  Date_parse : string -> option Z;
  (** [Number::toString] on the finite numbers that are not integers
      below 10^21 in magnitude *)
  Number_digits : Qc -> string
}.

(** ToBoolean. *)
Definition ToBoolean (v : prim) : bool :=
  match v with
  | PUndefined | PNull => false
  | PBool b => b
  | PNum n => Num.truthy n
  | PStr s => negb (String.eqb s "")
  end.

(** ToNumber. *)
Definition ToNumber (v : prim) : number :=
  match v with
  | PUndefined => NaN
  | PNull => Num.zero
  | PBool b => if b then Num.of_Z 1 else Num.zero
  | PNum n => n
  | PStr s => StringToNumber s
  end.

(** [parseFloat(v)] first converts [v] to a string: the words
    [undefined], [null], [true] and [false] hold no number, and the digits
    of a number denote that number. *)
Definition parseFloat (v : prim) : number :=
  match v with
  | PNum n => n
  | PStr s => parseFloat_string s
  | _ => NaN
  end.

(** ** Printing numbers *)

Module Fmt.

Definition digit_char (d : Z) : ascii := ascii_of_N (Z.to_N (48 + d)).

(** The decimal digits of [n >= 0], the least significant first. *)
Fixpoint digits_rev (fuel : nat) (n : Z) : list Z :=
  match fuel with
  | O => []
  | S f => if n <? 10 then [n] else (n mod 10) :: digits_rev f (n / 10)
  end.

Definition digits_of (n : Z) : list Z :=
  rev (digits_rev (S (Z.to_nat (Z.log2 n))) n).

Definition digits_string (n : Z) : string :=
  string_of_list_ascii (map digit_char (digits_of n)).

Definition is_integer (q : Qc) : bool :=
  bool_decide (Qc_of_Z (Qfloor q) = q).

Definition Qc_abs (q : Qc) : Qc :=
  if Num.Qc_ltb q (Qc_of_Z 0) then (- q)%Qc else q.

Definition big : Qc := Qc_of_Z (10 ^ 21).

Section WithHost.
Context `{Host}.

(** [Number::toString(x)], radix 10. *)
Definition Number_toString (x : number) : string :=
  match x with
  | NaN => "NaN"
  | PosInf => "Infinity"
  | NegInf => "-Infinity"
  | Fin q =>
      if is_integer q && Num.Qc_ltb (Qc_abs q) big then
        (if Num.Qc_ltb q (Qc_of_Z 0) then "-" else "")
        +:+ digits_string (Qfloor (Qc_abs q))
      else Number_digits q
  end.

(** [x.toFixed(2)]: the integer [n] nearest to [100 |x|], the larger one
    on a tie, printed with its last two digits after the point; a
    magnitude of 10^21 or more is printed as [Number::toString] does. *)
Definition toFixed2 (x : number) : string :=
  match x with
  | Fin q =>
      let s := if Num.Qc_ltb q (Qc_of_Z 0) then "-" else "" in
      let a := Qc_abs q in
      if Num.Qc_ltb a big then
        let n := Qfloor (a * Qc_of_Z 100 + Q2Qc (1 # 2))%Qc in
        s +:+ digits_string (n / 100) +:+ "."
          +:+ String (digit_char (n / 10 mod 10))
                (String (digit_char (n mod 10)) "")
      else s +:+ Number_toString (Fin a)
  | _ => Number_toString x
  end.

(** ToString on a primitive, as a template literal applies it. *)
Definition ToString (v : prim) : string :=
  match v with
  | PUndefined => "undefined"
  | PNull => "null"
  | PBool b => if b then "true" else "false"
  | PNum n => Number_toString n
  | PStr s => s
  end.

End WithHost.
End Fmt.

Export Fmt.

(** ** Date objects *)

(** A [Date] holds a time value: milliseconds since the epoch, or [NaN]
    ([None]) for an invalid date. *)
Record Date : Type := mkDate { tv : option Z }.

#[global] Instance Date_eq_dec : EqDecision Date.
Proof. solve_decision. Defined.

(** What a property read on an enriched record can give. *)
Inductive value : Type :=
| VPrim (p : prim)
| VDate (d : Date).

#[global] Instance value_eq_dec : EqDecision value.
Proof. solve_decision. Defined.

Module DateOps.

Definition msPerDay : Z := 86400000.

(** [d.getTime()], which is also what [d] is as a number. *)
Definition getTime (d : Date) : number :=
  match tv d with
  | Some t => Num.of_Z t
  | None => NaN
  end.

Definition TimeClip (t : Z) : option Z :=
  if 8640000000000000 <? Z.abs t then None else Some t.

Definition DayFromYear (y : Z) : Z :=
  365 * (y - 1970) + (y - 1969) / 4 - (y - 1901) / 100 + (y - 1601) / 400.

Definition InLeapYear (y : Z) : bool :=
  (y mod 4 =? 0) && (negb (y mod 100 =? 0) || (y mod 400 =? 0)).

(** Days from the start of the year to the start of month [mn] (0 to 11). *)
Definition month_start (leap : bool) (mn : Z) : Z :=
  nth (Z.to_nat mn) [0; 31; 59; 90; 120; 151; 181; 212; 243; 273; 304; 334] 0
  + (if leap && (2 <=? mn) then 1 else 0).

(** MakeDay on integers; the year is not bounded here, the time value is
    clipped at the end. *)
Definition MakeDay (year month date : Z) : Z :=
  let ym := year + month / 12 in
  let mn := month mod 12 in
  DayFromYear ym + month_start (InLeapYear ym) mn + date - 1.

(** ToIntegerOrInfinity of a number that must be finite. *)
Definition finite_integer (n : number) : option Z :=
  match n with
  | Fin q => Some (if Num.Qc_ltb q (Qc_of_Z 0) then Qceiling q else Qfloor q)
  | _ => None
  end.

Section WithHost.
Context `{Host}.

(** Local time to UTC. *)
Definition UTC (t : Z) : Z := t - LocalTZA t.

(** [new Date(year, month, day)]: a year from 0 to 99 means 1900 + year,
    month and day are not range checked, a [NaN] or infinite argument
    gives an invalid date. *)
Definition Date_ymd (year month day : number) : Date :=
  match finite_integer year, finite_integer month, finite_integer day with
  | Some y, Some m, Some dt =>
      let yr := if (0 <=? y) && (y <=? 99) then 1900 + y else y in
      mkDate (TimeClip (UTC (MakeDay yr m dt * msPerDay)))
  | _, _, _ => mkDate None
  end.

(** [new Date(text)]. *)
Definition Date_of_string (s : string) : Date :=
  mkDate (t ← Date_parse s; TimeClip t).

End WithHost.

(** [new Date(0)]. *)
Definition Date_epoch : Date := mkDate (Some 0).

End DateOps.

Export DateOps.

(** ** The application: [parseDate] and [processData] *)

(** A record of [this.data] after [processData]: the raw item, spread, and
    the four derived properties that override any raw property of the
    same name. *)
Record enriched : Type := mkEnriched {
  item : object;
  sla : number;
  avgDays : number;
  poDateObj : option Date;
  receivedDateObj : option Date
}.

#[global] Instance enriched_eq_dec : EqDecision enriched.
Proof. solve_decision. Defined.

Definition date_or_null (d : option Date) : value :=
  match d with
  | Some d => VDate d
  | None => VPrim PNull
  end.

(** [a[column]] on an enriched record. *)
Definition get (a : enriched) (column : string) : value :=
  if String.eqb column "sla" then VPrim (PNum (sla a))
  else if String.eqb column "avgDays" then VPrim (PNum (avgDays a))
  else if String.eqb column "poDateObj" then date_or_null (poDateObj a)
  else if String.eqb column "receivedDateObj"
       then date_or_null (receivedDateObj a)
  else VPrim (prop (item a) column).

Section App.
Context `{Host}.

(** [parseDate(dateString)]; [None] is [null]. *)
Definition parseDate (dateString : prim) : res (option Date) :=
  if negb (ToBoolean dateString) then Ok None
  else
    match dateString with
    | PStr s =>
        match Str.split "/" s with
        | [p0; p1; p2] =>
            let day := parseInt p0 in
            let month := Num.sub (parseInt p1) (Num.of_Z 1) in
            let year := parseInt p2 in
            Ok (Some (Date_ymd year month day))
        | _ =>
            let date := Date_of_string s in
            Ok (if Num.isNaN (getTime date) then None else Some date)
        end
    | _ => Throw (TypeError "dateString.split is not a function")
    end.

(** The callback of [this.data.map] in [processData]. *)
Definition enrich (it : object) : res enriched :=
  let poValue := Num.or_zero (parseFloat (prop it "poValue")) in
  let receivedValue := Num.or_zero (parseFloat (prop it "receivedValue")) in
  let sla :=
    if Num.gtb poValue Num.zero
    then Num.mul (Num.div receivedValue poValue) (Num.of_Z 100)
    else Num.zero in
  poDate ← parseDate (prop it "poDate");
  receivedDate ← parseDate (prop it "receivedDate");
  let avgDays :=
    match poDate, receivedDate with
    | Some p, Some r =>
        Num.ceil (Num.div (Num.sub (getTime r) (getTime p))
                    (Num.of_Z (1000 * 60 * 60 * 24)))
    | _, _ => Num.zero
    end in
  Ok {| item := it;
        sla := parseFloat_string (toFixed2 sla);
        avgDays := avgDays;
        poDateObj := poDate;
        receivedDateObj := receivedDate |}.

(** [processData()], on the value [this.data] holds after ingestion; only
    an array has a [map]. *)
Definition processData (data : payload) : res (list enriched) :=
  match data with
  | PArray items => map_res enrich items
  | _ => Throw (TypeError "this.data.map is not a function")
  end.

(** ** Ingestion: [loadData] *)

(** [result.data]: reading a property of [null] or [undefined] throws; a
    boolean, a number, a string and an array have no [data]. *)
Definition read_data (result : payload) : res payload :=
  match result with
  | PScalar PUndefined | PScalar PNull =>
      Throw (TypeError "Cannot read properties of null (reading 'data')")
  | PScalar _ | PArray _ => Ok (PScalar PUndefined)
  | PObject props =>
      Ok (match list_find (fun kv => String.eqb (fst kv) "data") props with
          | Some (_, (_, v)) => v
          | None => PScalar PUndefined
          end)
  end.

(** ToBoolean on a decoded value: arrays and objects are truthy. *)
Definition payload_truthy (p : payload) : bool :=
  match p with
  | PScalar v => ToBoolean v
  | _ => true
  end.

(** [this.data = result.data || result || []]. *)
Definition ingest (result : payload) : res payload :=
  d ← read_data result;
  Ok (if payload_truthy d then d
      else if payload_truthy result then result
      else PArray []).

(** ** The filter: [applyFilters] *)

(** The values of the seven filter inputs of the page. *)
Record filters : Type := mkFilters {
  poDateFrom : string;
  poDateTo : string;
  rcvDateFrom : string;
  rcvDateTo : string;
  supplierSearch : string;
  contractSearch : string;
  itemCodeSearch : string
}.

(** [bound && obj && obj < new Date(bound)]. *)
Definition before_bound (bound : string) (obj : option Date) : bool :=
  negb (String.eqb bound "") &&
  match obj with
  | Some d => Num.ltb (getTime d) (getTime (Date_of_string bound))
  | None => false
  end.

(** [bound && obj && obj > new Date(bound)]. *)
Definition after_bound (bound : string) (obj : option Date) : bool :=
  negb (String.eqb bound "") &&
  match obj with
  | Some d => Num.gtb (getTime d) (getTime (Date_of_string bound))
  | None => false
  end.

(** [needle && !field.toLowerCase().includes(needle)]: the field is read
    only when the needle is not empty, and must then be a string. *)
Definition misses (needle : string) (field : value) : res bool :=
  if String.eqb needle "" then Ok false
  else
    match field with
    | VPrim (PStr s) => Ok (negb (Str.includes (Str.toLowerCase s) needle))
    | VPrim PUndefined | VPrim PNull =>
        Throw (TypeError
                 "Cannot read properties of undefined (reading 'toLowerCase')")
    | _ => Throw (TypeError "toLowerCase is not a function")
    end.

(** The callback of [this.data.filter]; the needles are already in lower
    case. *)
Definition keeps (f : filters) (a : enriched) : res bool :=
  if before_bound (poDateFrom f) (poDateObj a) then Ok false
  else if after_bound (poDateTo f) (poDateObj a) then Ok false
  else if before_bound (rcvDateFrom f) (receivedDateObj a) then Ok false
  else if after_bound (rcvDateTo f) (receivedDateObj a) then Ok false
  else
    m ← misses (supplierSearch f) (get a "supplierName");
    if m : bool then Ok false
    else
      m ← misses (contractSearch f) (get a "contract");
      if m : bool then Ok false
      else
        m ← misses (itemCodeSearch f) (get a "itemCode");
        if m : bool then Ok false else Ok true.

Definition lower_needles (f : filters) : filters :=
  {| poDateFrom := poDateFrom f;
     poDateTo := poDateTo f;
     rcvDateFrom := rcvDateFrom f;
     rcvDateTo := rcvDateTo f;
     supplierSearch := Str.toLowerCase (supplierSearch f);
     contractSearch := Str.toLowerCase (contractSearch f);
     itemCodeSearch := Str.toLowerCase (itemCodeSearch f) |}.

(** ** The sort: [sortTable] *)

Inductive direction : Type := asc | desc.

#[global] Instance direction_eq_dec : EqDecision direction.
Proof. solve_decision. Defined.

(** What the instance holds: [this.data], [this.filteredData],
    [this.sortColumn] ([None] is [null]) and [this.sortDirection]. *)
Record state : Type := mkState {
  data : list enriched;
  filteredData : list enriched;
  sortColumn : option string;
  sortDirection : direction
}.

(** The state the constructor builds. *)
Definition initial : state :=
  {| data := []; filteredData := []; sortColumn := None;
     sortDirection := asc |}.

(** [applyFilters()], given the values of the inputs. *)
Definition applyFilters (f : filters) (st : state) : res state :=
  view ← filter_res (keeps (lower_needles f)) (data st);
  Ok {| data := data st; filteredData := view;
        sortColumn := sortColumn st; sortDirection := sortDirection st |}.

Definition numeric_column (column : string) : bool :=
  String.eqb column "qtyPO" || String.eqb column "qtyReceived" ||
  String.eqb column "poValue" || String.eqb column "receivedValue" ||
  String.eqb column "sla" || String.eqb column "avgDays".

Definition date_column (column : string) : bool :=
  String.eqb column "poDate" || String.eqb column "receivedDate".

(** [parseFloat] on what a property read gives; the text of a [Date]
    starts with a letter. *)
Definition parseFloat_value (v : value) : number :=
  match v with
  | VPrim p => parseFloat p
  | VDate _ => NaN
  end.

(** ToBoolean: an object, even an invalid [Date], is truthy. *)
Definition value_truthy (v : value) : bool :=
  match v with
  | VPrim p => ToBoolean p
  | VDate _ => true
  end.

(** The value the comparator compares for a record: [aVal] after the two
    adjustments. *)
Definition sort_key (column : string) (a : enriched) : value :=
  let aVal := get a column in
  let aVal :=
    if numeric_column column
    then VPrim (PNum (Num.or_zero (parseFloat_value aVal)))
    else aVal in
  if date_column column then
    let obj := get a (column +:+ "Obj") in
    if value_truthy obj then obj else VDate Date_epoch
  else aVal.

(** ToPrimitive with the hint number: a [Date] gives its time value. *)
Definition ToPrimitive (v : value) : prim :=
  match v with
  | VPrim p => p
  | VDate d => PNum (getTime d)
  end.

(** [x < y]: two strings compare as strings, anything else as numbers. *)
Definition js_lt (x y : value) : bool :=
  match ToPrimitive x, ToPrimitive y with
  | PStr s, PStr t => Str.ltb s t
  | p, q => Num.ltb (ToNumber p) (ToNumber q)
  end.

(** The comparator handed to [sort]. *)
Definition compareFn (column : string) (dir : direction) (a b : enriched)
  : Z :=
  let aVal := sort_key column a in
  let bVal := sort_key column b in
  if js_lt aVal bVal then (match dir with asc => -1 | desc => 1 end)
  else if js_lt bVal aVal then (match dir with asc => 1 | desc => -1 end)
  else 0.

(** [Array.prototype.sort]: a stable sort.  For a consistent comparator
    the result is fixed by the language; for an inconsistent one the
    language leaves the order to the engine, and this model inserts from
    the right. *)
Fixpoint insert_by {A : Type} (cmp : A -> A -> Z) (x : A) (l : list A)
  : list A :=
  match l with
  | [] => [x]
  | y :: r => if 0 <? cmp x y then y :: insert_by cmp x r else x :: l
  end.

Fixpoint Array_sort {A : Type} (cmp : A -> A -> Z) (l : list A) : list A :=
  match l with
  | [] => []
  | x :: r => insert_by cmp x (Array_sort cmp r)
  end.

Definition flip (d : direction) : direction :=
  match d with asc => desc | desc => asc end.

(** [sortTable(column)]. *)
Definition sortTable (column : string) (st : state) : state :=
  let dir :=
    if bool_decide (sortColumn st = Some column)
    then flip (sortDirection st)
    else asc in
  {| data := data st;
     filteredData := Array_sort (compareFn column dir) (filteredData st);
     sortColumn := Some column;
     sortDirection := dir |}.

(** ** The summary: [updateStatistics] *)

(** [new Set(values)]: the values in insertion order, a value equal to an
    earlier one (SameValueZero, which on these primitives is equality)
    left out; [size] is the number of entries. *)
Definition Set_add (s : list prim) (v : prim) : list prim :=
  if bool_decide (v ∈ s) then s else s ++ [v].

Definition Set_of (values : list prim) : list prim :=
  fold_left Set_add values [].

(** The four values [updateStatistics] computes before it prints them;
    [avgDaysMean] is its constant [avgDays], a name the records have
    already. *)
Record statistics : Type := mkStatistics {
  totalPO : nat;
  totalItems : nat;
  avgSLA : number;
  avgDaysMean : number
}.

Definition updateStatistics (view : list enriched) : statistics :=
  {| totalPO :=
       List.length (Set_of (map (fun a => prop (item a) "nomorPO") view));
     totalItems := List.length view;
     avgSLA :=
       if (0 <? List.length view)%nat
       then Num.div (fold_left (fun sum a => Num.add sum (sla a)) view
                       Num.zero)
                    (Num.of_nat (List.length view))
       else Num.zero;
     avgDaysMean :=
       if (0 <? List.length view)%nat
       then Num.div (fold_left (fun sum a => Num.add sum (avgDays a)) view
                       Num.zero)
                    (Num.of_nat (List.length view))
       else Num.zero |}.

(** ** The export: [exportToCSV] *)

Definition headers : list string :=
  ["Nomor PO"; "Item Code"; "Item Name"; "Supplier Name";
   "Contract/Principal"; "PO Date"; "Qty PO"; "PO Value"; "Received Date";
   "Qty Received"; "Received Value"; "SLA (%)"; "Avg Days"].

(** The array built for one record. *)
Definition csv_cells (a : enriched) : list prim :=
  [prop (item a) "nomorPO";
   prop (item a) "itemCode";
   prop (item a) "itemName";
   prop (item a) "supplierName";
   prop (item a) "contract";
   prop (item a) "poDate";
   prop (item a) "qtyPO";
   prop (item a) "poValue";
   prop (item a) "receivedDate";
   prop (item a) "qtyReceived";
   prop (item a) "receivedValue";
   PStr (toFixed2 (sla a));
   PNum (avgDays a)].

(** The double quote character. *)
Definition dquote : string := String (ascii_of_N 34) EmptyString.

(** The template literal that wraps a cell in double quotes. *)
Definition quoted (cell : prim) : string :=
  dquote +:+ ToString cell +:+ dquote.

(** The text handed to the download, or [None] when the view is empty
    and the function only alerts. *)
Definition exportToCSV (view : list enriched) : option string :=
  if (List.length view =? 0)%nat then None
  else
    let rows := map csv_cells view in
    Some (Str.join (String (ascii_of_N 10) "")
            (Str.join "," headers
             :: map (fun row => Str.join "," (map quoted row)) rows)).

(** ** [loadData], from the decoded response on *)

(** The body of the [try] after [response.json()]: the state and the
    summary when it completes, the exception the [catch] reports
    otherwise. *)
Definition loadData (f : filters) (st : state) (result : payload)
  : res (state * statistics) :=
  raw ← ingest result;
  records ← processData raw;
  st' ← applyFilters f {| data := records;
                          filteredData := filteredData st;
                          sortColumn := sortColumn st;
                          sortDirection := sortDirection st |};
  Ok (st', updateStatistics (filteredData st')).

End App.

(** ** Shapes of the payload *)

(** The two shapes the ingestion is written for: an array of records, or
    an object whose [data] is one. *)
Definition is_record_payload (p : payload) : bool :=
  match p with
  | PArray _ => true
  | PObject props =>
      match list_find (fun kv => String.eqb (fst kv) "data") props with
      | Some (_, (_, PArray _)) => true
      | _ => false
      end
  | PScalar _ => false
  end.

(** The falsy values that have properties: [false], [0], [NaN] and the
    empty string. *)
Definition falsy_not_nullish (p : payload) : bool :=
  match p with
  | PScalar (PBool b) => negb b
  | PScalar (PNum n) => negb (Num.truthy n)
  | PScalar (PStr s) => String.eqb s ""
  | _ => false
  end.

(** The summary of an empty view. *)
Definition empty_statistics : statistics :=
  {| totalPO := 0; totalItems := 0; avgSLA := Num.zero;
     avgDaysMean := Num.zero |}.

(** ** A host for the examples: UTC, ISO dates, plain decimals *)

Module ExampleHost.
Import Str.

(** [YYYY-MM-DD], the form a date input gives, as UTC midnight. *)
Definition parse_iso_date (s : string) : option Z :=
  match split "-" s with
  | [y; m; d] =>
      match take_digits dec_digit (chars y), take_digits dec_digit (chars m),
            take_digits dec_digit (chars d) with
      | ([_; _; _; _] as yd, []), ([_; _] as md, []), ([_; _] as dd, []) =>
          let mv := digits_value 10 md in
          let dv := digits_value 10 dd in
          if (1 <=? mv) && (mv <=? 12) && (1 <=? dv) && (dv <=? 31)
          then Some (MakeDay (digits_value 10 yd) (mv - 1) dv * msPerDay)
          else None
      | _, _, _ => None
      end
  | _ => None
  end.

#[export] Instance utc : Host := {|
  LocalTZA := fun _ => 0;
  Date_parse := parse_iso_date;
  Number_digits := fun q =>
    digits_string (Qfloor (Qc_abs q)) +:+ "."
|}.

End ExampleHost.

(** Filters with one field replaced. *)
Definition with_po_bounds (from to : string) (f : filters) : filters :=
  {| poDateFrom := from; poDateTo := to;
     rcvDateFrom := rcvDateFrom f; rcvDateTo := rcvDateTo f;
     supplierSearch := supplierSearch f;
     contractSearch := contractSearch f;
     itemCodeSearch := itemCodeSearch f |}.

Definition with_rcv_bounds (from to : string) (f : filters) : filters :=
  {| poDateFrom := poDateFrom f; poDateTo := poDateTo f;
     rcvDateFrom := from; rcvDateTo := to;
     supplierSearch := supplierSearch f;
     contractSearch := contractSearch f;
     itemCodeSearch := itemCodeSearch f |}.

(** ** Ties and order of the sort keys *)

(** The comparison the comparator makes between two records. *)
Definition key_lt (column : string) (a b : enriched) : bool :=
  js_lt (sort_key column a) (sort_key column b).

(** No two records of the list tie: of any two, one compares below the
    other, so the comparator never answers 0 on them. *)
Fixpoint no_ties (column : string) (l : list enriched) : bool :=
  match l with
  | [] => true
  | a :: r =>
      forallb (fun b => key_lt column a b || key_lt column b a) r
      && no_ties column r
  end.

(** The comparison is transitive on the records of the list. *)
Definition transitive_keys (column : string) (l : list enriched) : bool :=
  forallb (fun a =>
    forallb (fun b =>
      forallb (fun c =>
        implb (key_lt column a b && key_lt column b c) (key_lt column a c))
        l) l) l.

(** The date a date column sorts by. *)
Definition dateObj_of (column : string) (a : enriched) : option Date :=
  if String.eqb column "poDate" then poDateObj a else receivedDateObj a.

(** No record of the list holds an invalid date in that column. *)
Definition no_invalid_date (column : string) (l : list enriched) : bool :=
  forallb (fun a =>
    match dateObj_of column a with
    | Some (mkDate None) => false
    | _ => true
    end) l.

#[global] Instance filters_eq_dec : EqDecision filters.
Proof. solve_decision. Defined.
#[global] Instance state_eq_dec : EqDecision state.
Proof. solve_decision. Defined.
#[global] Instance statistics_eq_dec : EqDecision statistics.
Proof. solve_decision. Defined.

(** The time value a record sorts by when its date is not invalid. *)
Definition time_key (column : string) (a : enriched) : Z :=
  match dateObj_of column a with
  | Some (mkDate (Some t)) => t
  | _ => 0
  end.

Definition date_is_valid (column : string) (a : enriched) : Prop :=
  dateObj_of column a ≠ Some (mkDate None).

(** ** The summary, as the specification words it *)

#[global] Instance number_countable : Countable number :=
  inj_countable'
    (fun n => match n with
              | NaN => inl (inl tt)
              | NegInf => inl (inr tt)
              | Fin q => inr (inl q)
              | PosInf => inr (inr tt)
              end)
    (fun s => match s with
              | inl (inl _) => NaN
              | inl (inr _) => NegInf
              | inr (inl q) => Fin q
              | inr (inr _) => PosInf
              end)
    (fun n => match n with
              | NaN | NegInf | Fin _ | PosInf => eq_refl
              end).

#[global] Instance prim_countable : Countable prim :=
  inj_countable'
    (fun v => match v with
              | PUndefined => inl (inl tt)
              | PNull => inl (inr tt)
              | PBool b => inr (inl b)
              | PNum n => inr (inr (inl n))
              | PStr s => inr (inr (inr s))
              end)
    (fun s => match s with
              | inl (inl _) => PUndefined
              | inl (inr _) => PNull
              | inr (inl b) => PBool b
              | inr (inr (inl n)) => PNum n
              | inr (inr (inr s)) => PStr s
              end)
    (fun v => match v with
              | PUndefined | PNull | PBool _ | PNum _ | PStr _ => eq_refl
              end).

(** The set of the order numbers of a view. *)
Definition order_numbers (view : list enriched) : gset prim :=
  list_to_set (map (fun a => prop (item a) "nomorPO") view).

(** The arithmetic mean in the arithmetic of the language: the sum of the
    values over their count, and 0 for no value. *)
Definition mean (values : list number) : number :=
  match values with
  | [] => Num.zero
  | _ => Num.div (foldr Num.add Num.zero values)
           (Num.of_nat (List.length values))
  end.

(** The arithmetic mean of rationals. *)
Definition arithmetic_mean (qs : list Qc) : Qc :=
  (foldr Qcplus (Qc_of_Z 0) qs / Qc_of_Z (Z.of_nat (List.length qs)))%Qc.

(** ** The exported text, as the specification words it *)

Definition newline : string := String (ascii_of_N 10) EmptyString.

Section ExportSpec.
Context `{Host}.

(** The texts of the thirteen cells of a record, in the order of the
    columns: the raw properties as they print, the ratio with two
    decimals, the elapsed days. *)
Definition cell_texts (a : enriched) : list string :=
  [ToString (prop (item a) "nomorPO");
   ToString (prop (item a) "itemCode");
   ToString (prop (item a) "itemName");
   ToString (prop (item a) "supplierName");
   ToString (prop (item a) "contract");
   ToString (prop (item a) "poDate");
   ToString (prop (item a) "qtyPO");
   ToString (prop (item a) "poValue");
   ToString (prop (item a) "receivedDate");
   ToString (prop (item a) "qtyReceived");
   ToString (prop (item a) "receivedValue");
   toFixed2 (sla a);
   Number_toString (avgDays a)].

(** A cell between two quote characters, its text unchanged. *)
Definition in_quotes (text : string) : string := dquote +:+ text +:+ dquote.

(** The line of a record: its cells in quotes, commas between them. *)
Definition csv_line (a : enriched) : string :=
  Str.join "," (map in_quotes (cell_texts a)).

(** The header line, then for each record of the view, in the order of
    the view, a line break and the line of the record. *)
Definition csv_text (view : list enriched) : string :=
  Str.join "," headers
  +:+ foldr (fun a rest => newline +:+ csv_line a +:+ rest) EmptyString view.

End ExportSpec.

(** ** Rounding, as the specification words it *)

(** [a <= b] on numbers. *)
Definition num_leb (a b : number) : bool :=
  match a, b with
  | NaN, _ | _, NaN => false
  | _, _ => negb (Num.ltb b a)
  end.

(** A number rounded to two decimals: the nearest multiple of 1/100, the
    one away from zero on a tie; an infinity and [NaN] are kept. *)
Definition round2 (x : number) : number :=
  match x with
  | Fin q =>
      let n := Qfloor (Qc_abs q * Qc_of_Z 100 + Q2Qc (1 # 2))%Qc in
      Fin (Q2Qc ((if Num.Qc_ltb q (Qc_of_Z 0) then - n else n) # 100))
  | _ => x
  end.

(** The magnitudes [toFixed] prints in fixed notation: below 10^21. *)
Definition fixed_notation (x : number) : bool :=
  match x with
  | Fin q => Num.Qc_ltb (Qc_abs q) big
  | _ => true
  end.

(** The value of digits given the least significant first. *)
Definition le_value (ds : list Z) : Z :=
  foldr (fun d acc => d + 10 * acc) 0 ds.

(** ** Data for the examples *)

Module Sample.
Import ExampleHost.

(** All seven inputs empty. *)
Definition no_filters : filters :=
  {| poDateFrom := ""; poDateTo := ""; rcvDateFrom := ""; rcvDateTo := "";
     supplierSearch := ""; contractSearch := ""; itemCodeSearch := "" |}.

(** The record of the end-to-end scenario. *)
Definition po1 : object :=
  [("nomorPO", PStr "PO1"); ("poValue", PStr "100");
   ("receivedValue", PStr "80"); ("poDate", PStr "01/01/2024");
   ("receivedDate", PStr "05/01/2024"); ("supplierName", PStr "Acme");
   ("contract", PStr "C1"); ("itemCode", PStr "X1")].

Definition po1_enriched : enriched :=
  {| item := po1; sla := Num.of_Z 80; avgDays := Num.of_Z 4;
     poDateObj := Some (mkDate (Some 1704067200000));
     receivedDateObj := Some (mkDate (Some 1704412800000)) |}.

(** A record with no order date. *)
Definition undated : enriched :=
  {| item := [("nomorPO", PStr "PO2"); ("receivedDate", PStr "05/01/2024")];
     sla := Num.zero; avgDays := Num.zero;
     poDateObj := None;
     receivedDateObj := Some (mkDate (Some 1704412800000)) |}.

(** Bounds on the order date that exclude every date. *)
Definition in_2030 : filters :=
  with_po_bounds "2030-01-01" "2030-12-31" no_filters.

(** Bounds that start and end on the order date of [po1]. *)
Definition on_new_year : filters :=
  with_rcv_bounds "2024-01-05" "2024-01-05"
    (with_po_bounds "2024-01-01" "2024-01-01" no_filters).

(** Three orders of one supplier, received to 10, 30 and 20 percent. *)
Definition order (po received : string) : object :=
  [("nomorPO", PStr po); ("poValue", PNum (Num.of_Z 100));
   ("receivedValue", PStr received); ("supplierName", PStr "Acme")].

Definition three_orders : payload :=
  PArray [order "PO-A" "10"; order "PO-B" "30"; order "PO-C" "20"].

Definition filled (po received : string) (ratio : Z) : enriched :=
  {| item := order po received; sla := Num.of_Z ratio;
     avgDays := Num.zero; poDateObj := None; receivedDateObj := None |}.

(** The state after loading [three_orders] into the initial state. *)
Definition loaded : state :=
  {| data := [filled "PO-A" "10" 10; filled "PO-B" "30" 30;
              filled "PO-C" "20" 20];
     filteredData := [filled "PO-A" "10" 10; filled "PO-B" "30" 30;
                      filled "PO-C" "20" 20];
     sortColumn := None; sortDirection := asc |}.

(** The state after sorting [loaded] by ["sla"] and filtering again: the
    view is back in the order of the data, the sort column stays. *)
Definition refiltered : state :=
  {| data := data loaded; filteredData := data loaded;
     sortColumn := Some "sla"; sortDirection := asc |}.

(** Two deliveries, one ordered in 1960 and one with no order date. *)
Definition two_deliveries : payload :=
  PArray [[("nomorPO", PStr "PO-OLD"); ("poDate", PStr "01/01/1960")];
          [("nomorPO", PStr "PO-NEW")]].

Definition ordered_1960 : enriched :=
  {| item := [("nomorPO", PStr "PO-OLD"); ("poDate", PStr "01/01/1960")];
     sla := Num.zero; avgDays := Num.zero;
     poDateObj := Some (mkDate (Some (-315619200000)));
     receivedDateObj := None |}.

Definition order_date_missing : enriched :=
  {| item := [("nomorPO", PStr "PO-NEW")];
     sla := Num.zero; avgDays := Num.zero;
     poDateObj := None; receivedDateObj := None |}.

(** The state after loading [two_deliveries] into the initial state. *)
Definition deliveries : state :=
  {| data := [ordered_1960; order_date_missing];
     filteredData := [ordered_1960; order_date_missing];
     sortColumn := None; sortDirection := asc |}.

(** A view of [undated] and [po1_enriched], which is ordered in 2024. *)
Definition recent : state :=
  {| data := [po1_enriched; undated];
     filteredData := [po1_enriched; undated];
     sortColumn := None; sortDirection := asc |}.

(** A record whose item name holds a quote character, for a pipe of
    twelve inches. *)
Definition pipe : enriched :=
  {| item := [("nomorPO", PStr "PO9");
              ("itemName", PStr ("12" +:+ dquote +:+ " pipe"));
              ("qtyPO", PNum (Num.of_Z 3))];
     sla := Num.of_Z 50; avgDays := Num.of_Z 2;
     poDateObj := None; receivedDateObj := None |}.

(** Two records whose order numbers are a string and a number. *)
Definition mixed_numbers : state :=
  {| data := [filled "PO-1" "10" 10;
              {| item := [("nomorPO", PNum (Num.of_Z 7))];
                 sla := Num.zero; avgDays := Num.zero;
                 poDateObj := None; receivedDateObj := None |}];
     filteredData := [filled "PO-1" "10" 10;
                      {| item := [("nomorPO", PNum (Num.of_Z 7))];
                         sla := Num.zero; avgDays := Num.zero;
                         poDateObj := None; receivedDateObj := None |}];
     sortColumn := None; sortDirection := asc |}.

End Sample.

(** ** The configuration: [ConfigManager] of [config.js] *)

Module Config.

Definition CONFIG_KEY : string := "sla_monitoring_api_url".

(** [s.trim()], on the ASCII white space. *)
Definition trim (s : string) : string :=
  string_of_list_ascii (Str.trim (Str.chars s)).

(** An instance: its one field. *)
Record ConfigManager : Type := mkConfigManager { apiUrl : string }.

(** The browser's [localStorage], a map from keys to texts, and the
    instance that works on it. *)
Record world : Type := mkWorld {
  localStorage : gmap string string;
  manager : ConfigManager
}.

(** [getApiUrl()]: [localStorage.getItem(CONFIG_KEY) || '']. *)
Definition getApiUrl (store : gmap string string) : string :=
  match store !! CONFIG_KEY with
  | Some v => if String.eqb v "" then "" else v
  | None => ""
  end.

(** [new ConfigManager()]. *)
Definition create (store : gmap string string) : ConfigManager :=
  {| apiUrl := getApiUrl store |}.

(** A page that has just been opened on a given [localStorage]. *)
Definition boot (store : gmap string string) : world :=
  {| localStorage := store; manager := create store |}.

(** [setApiUrl(url)]. *)
Definition setApiUrl (url : string) (w : world) : world :=
  {| localStorage := <[CONFIG_KEY := url]> (localStorage w);
     manager := {| apiUrl := url |} |}.

(** [hasApiUrl()], as a condition:
    [this.apiUrl && this.apiUrl.trim() !== '']. *)
Definition hasApiUrl (cm : ConfigManager) : bool :=
  negb (String.eqb (apiUrl cm) "") && negb (String.eqb (trim (apiUrl cm)) "").

(** [clearApiUrl()]. *)
Definition clearApiUrl (w : world) : world :=
  {| localStorage := delete CONFIG_KEY (localStorage w);
     manager := {| apiUrl := "" |} |}.

(** A call of one of the two methods that write. *)
Inductive call : Type :=
| CallSet (url : string)
| CallClear.

Definition step (w : world) (c : call) : world :=
  match c with
  | CallSet url => setApiUrl url w
  | CallClear => clearApiUrl w
  end.

(** A sequence of calls, the first of the list first. *)
Definition run (calls : list call) (w : world) : world :=
  fold_left step calls w.

End Config.

(** ** The application around the pipeline *)

(** What a handler of the application asks for next. *)
Inductive action : Type :=
| ShowConfigModal
| Alert (message : string)
| HideModalAndLoad
| LoadData.

(** [init()], after the listeners are set up. *)
Definition init (cm : Config.ConfigManager) : action :=
  if negb (Config.hasApiUrl cm) then ShowConfigModal else LoadData.

(** [saveConfiguration()], given the value of the URL input. *)
Definition saveConfiguration (input : string) (w : Config.world)
  : Config.world * action :=
  let apiUrl := Config.trim input in
  if String.eqb apiUrl "" then (w, Alert "Please enter a valid API URL")
  else (Config.setApiUrl apiUrl w, HideModalAndLoad).

(** The filter inputs after [clearFilters()] has emptied them. *)
Definition cleared : filters :=
  {| poDateFrom := ""; poDateTo := ""; rcvDateFrom := ""; rcvDateTo := "";
     supplierSearch := ""; contractSearch := ""; itemCodeSearch := "" |}.

(** [a >= b] on numbers. *)
Definition num_geb (a b : number) : bool := num_leb b a.

(** [getSLAClass(sla)]. *)
Definition getSLAClass (sla : number) : string :=
  if num_geb sla (Num.of_Z 80) then "sla-excellent"
  else if num_geb sla (Num.of_Z 60) then "sla-good"
  else if num_geb sla (Num.of_Z 40) then "sla-average"
  else "sla-poor".

(** How good a class is, from 0 for the poorest. *)
Definition class_rank (class : string) : nat :=
  if String.eqb class "sla-excellent" then 3
  else if String.eqb class "sla-good" then 2
  else if String.eqb class "sla-average" then 1
  else 0.

(** What the serialisation of a text node makes of one character: the
    ampersand, the two angle brackets and the no-break space (code 160)
    become entities. *)
Definition escape_char (c : ascii) : string :=
  if Ascii.eqb c "&" then "&amp;"
  else if Ascii.eqb c "<" then "&lt;"
  else if Ascii.eqb c ">" then "&gt;"
  else if Str.code c =? 160 then "&nbsp;"
  else String c EmptyString.

Fixpoint escape_text (s : string) : string :=
  match s with
  | EmptyString => EmptyString
  | String c r => escape_char c +:+ escape_text r
  end.

Section Page.
Context `{Host}.

(** [clearFilters()]: the inputs it leaves and the filter it runs. *)
Definition clearFilters (st : state) : filters * res state :=
  (cleared, applyFilters cleared st).

(** [escapeHtml(text)]: the text is assigned to [textContent], a
    nullable string attribute, which takes [null] and [undefined] as the
    empty text and any other value as its string, and read back as
    [innerHTML]. *)
Definition escapeHtml (text : prim) : string :=
  escape_text (match text with
               | PNull | PUndefined => ""
               | _ => ToString text
               end).

(** [escapeHtml(v || '')], as [renderTable] calls it on a property. *)
Definition text_cell (v : prim) : string :=
  escapeHtml (if ToBoolean v then v else PStr "").

End Page.

(** The date filters alone, and the needles alone. *)
Definition only_dates (f : filters) : filters :=
  {| poDateFrom := poDateFrom f; poDateTo := poDateTo f;
     rcvDateFrom := rcvDateFrom f; rcvDateTo := rcvDateTo f;
     supplierSearch := ""; contractSearch := ""; itemCodeSearch := "" |}.

Definition only_needles (f : filters) : filters :=
  {| poDateFrom := ""; poDateTo := ""; rcvDateFrom := ""; rcvDateTo := "";
     supplierSearch := supplierSearch f;
     contractSearch := contractSearch f;
     itemCodeSearch := itemCodeSearch f |}.

(** The number a numeric column sorts a record by. *)
Definition numeric_key (column : string) (a : enriched) : number :=
  Num.or_zero (parseFloat_value (get a column)).

(** The four names [processData] defines on every record. *)
Definition derived_name (k : string) : bool :=
  String.eqb k "sla" || String.eqb k "avgDays" ||
  String.eqb k "poDateObj" || String.eqb k "receivedDateObj".

(** What [parseDate] can take: a falsy value or a string. *)
Definition date_text (v : prim) : bool :=
  negb (ToBoolean v) || match v with PStr _ => true | _ => false end.

(** Reading the entities of [escape_char] back. *)
Fixpoint unescape_text (s : string) : string :=
  match s with
  | EmptyString => EmptyString
  | String c r =>
      if Ascii.eqb c "&" then
        match r with
        | String "a" (String "m" (String "p" (String ";" r'))) =>
            String "&" (unescape_text r')
        | String "l" (String "t" (String ";" r')) =>
            String "<" (unescape_text r')
        | String "g" (String "t" (String ";" r')) =>
            String ">" (unescape_text r')
        | String "n" (String "b" (String "s" (String "p" (String ";" r')))) =>
            String (ascii_of_N 160) (unescape_text r')
        | _ => String c (unescape_text r)
        end
      else String c (unescape_text r)
  end.

(** The records of a view whose sort key is [k], in view order. *)
Definition with_key (column : string) (k : value) (view : list enriched)
  : list enriched :=
  filter (λ a, sort_key column a = k) view.

(** The three properties the needles read hold texts. *)
Definition has_texts (a : enriched) : Prop :=
  ∀ k, k = "supplierName" ∨ k = "contract" ∨ k = "itemCode" →
       ∃ s, prop (item a) k = PStr s.

(** ** More data for the examples *)

Module Demo.

(** A storage that holds a key of another script. *)
Definition store : gmap string string := {[ "theme" := "dark" ]}.

Definition calls : list Config.call :=
  [Config.CallSet "https://api.example/exec"; Config.CallClear].

(** A record of another supplier, with no dates and no values. *)
Definition bolt : enriched :=
  {| item := [("nomorPO", PStr "PO3"); ("supplierName", PStr "Bolt");
              ("contract", PStr "C2"); ("itemCode", PStr "Y1")];
     sla := Num.zero; avgDays := Num.zero;
     poDateObj := None; receivedDateObj := None |}.

(** The two records as data, and a view of them. *)
Definition showing (view : list enriched) : state :=
  {| data := [Sample.po1_enriched; bolt]; filteredData := view;
     sortColumn := None; sortDirection := asc |}.

Definition stock : state := showing [Sample.po1_enriched; bolt].

(** The supplier needle alone, and with bounds on the order date. *)
Definition acme : filters :=
  {| poDateFrom := ""; poDateTo := ""; rcvDateFrom := ""; rcvDateTo := "";
     supplierSearch := "Acme"; contractSearch := ""; itemCodeSearch := "" |}.

Definition acme_in_2024 : filters :=
  with_po_bounds "2024-01-01" "2024-12-31" acme.

(** The summary of [Sample.loaded]. *)
Definition loaded_summary : statistics :=
  {| totalPO := 3; totalItems := 3; avgSLA := Num.of_Z 20;
     avgDaysMean := Num.zero |}.

End Demo.

(** * Properties *)

(** ** The built-in functions on examples *)

Example parseInt_25 : parseInt "25" = Num.of_Z 25.
Proof. reflexivity. Qed.
Example parseInt_a : parseInt "a" = NaN.
Proof. reflexivity. Qed.
Example parseInt_hex : parseInt " -0x1f!" = Num.of_Z (-31).
Proof. reflexivity. Qed.
Example split_date : Str.split "/" "25/12/2024" = ["25"; "12"; "2024"].
Proof. reflexivity. Qed.
Example split_none : Str.split "/" "" = [""].
Proof. reflexivity. Qed.
Example parseFloat_80 : parseFloat_string "80.50abc" = Fin (Q2Qc (161 # 2)).
Proof. run_eq. Qed.
Example parseFloat_exp : parseFloat_string "  -1.5e2" = Num.of_Z (-150).
Proof. run_eq. Qed.
Example parseFloat_word : parseFloat_string "abc" = NaN.
Proof. reflexivity. Qed.
Example StringToNumber_empty : StringToNumber "  " = Num.zero.
Proof. reflexivity. Qed.
Example StringToNumber_junk : StringToNumber "12px" = NaN.
Proof. reflexivity. Qed.
Example parse_christmas :
  parseDate (H := ExampleHost.utc) (PStr "25/12/2024")
  = Ok (Some (mkDate (Some 1735084800000))).
Proof. reflexivity. Qed.

(** Day 32 of January is 1 February: the parts are not range checked. *)
Example parse_day_32 :
  parseDate (H := ExampleHost.utc) (PStr "32/01/2024")
  = parseDate (H := ExampleHost.utc) (PStr "01/02/2024").
Proof. reflexivity. Qed.

(** A year of two digits is a year of the twentieth century. *)
Example parse_short_year :
  parseDate (H := ExampleHost.utc) (PStr "01/01/70")
  = Ok (Some (mkDate (Some 0))).
Proof. reflexivity. Qed.

Example parse_iso_bound :
  Date_of_string (H := ExampleHost.utc) "2024-12-25"
  = mkDate (Some 1735084800000).
Proof. reflexivity. Qed.

(** The record of the end-to-end scenario: 80 percent, 4 days. *)
Example enrich_po1 :
  enrich (H := ExampleHost.utc) Sample.po1 = Ok Sample.po1_enriched.
Proof. run_eq. Qed.

(** ** The date parser *)

Section ParseDate.
Context `{Host}.

(** On a string the parser returns: it has no path that throws. *)
Lemma parseDate_string_returns (s : string) :
  ∃ r, parseDate (PStr s) = Ok r.
Proof.
  unfold parseDate. destruct (negb (ToBoolean (PStr s))); [by eexists|].
  destruct (Str.split "/" s) as [|p0 [|p1 [|p2 [|p3 l]]]]; by eexists.
Qed.

(** The fallback path maps an invalid date to [null]. *)
Lemma parseDate_fallback_valid (s : string) (d : Date) :
  List.length (Str.split "/" s) ≠ 3%nat →
  parseDate (PStr s) = Ok (Some d) → ∃ t, tv d = Some t.
Proof.
  unfold parseDate. intros Hlen.
  destruct (negb (ToBoolean (PStr s))); [done|].
  destruct (Str.split "/" s) as [|p0 [|p1 [|p2 [|p3 l]]]];
    try done;
    (destruct (Date_of_string s) as [[t|]]; cbn; intros [= <-]; by eexists).
Qed.

(** C2: the day/month/year path returns what the [Date] constructor
    gives without the validity check of the fallback path; on the input
    ["a/b/c"] the three parts parse to [NaN] and the parser returns an
    invalid date, which is not [null]. *)
Theorem parseDate_three_parts_unchecked :
  parseDate (PStr "a/b/c") = Ok (Some (mkDate None)).
Proof. reflexivity. Qed.

End ParseDate.

(** ** Enrichment *)

Section Enrich.
Context `{Host}.

Lemma sub_NaN_r (a : number) : Num.sub a NaN = NaN.
Proof. by destruct a. Qed.

Lemma div_NaN_l (b : number) : Num.div NaN b = NaN.
Proof. by destruct b. Qed.

(** Where both dates are absent or parse to [null], or one of them does,
    the elapsed days are 0. *)
Lemma enrich_avgDays_null (it : object) (e : enriched) :
  enrich it = Ok e →
  poDateObj e = None ∨ receivedDateObj e = None →
  avgDays e = Num.zero.
Proof.
  unfold enrich. intros He Hnull.
  destruct (parseDate (prop it "poDate")) as [p|]; [|done].
  destruct (parseDate (prop it "receivedDate")) as [r|]; [|done].
  cbn in He. injection He as <-. cbn in *.
  destruct Hnull as [-> | ->]; [done|]. by destruct p.
Qed.

(** Where both dates are valid, the elapsed days are the ceiling of the
    difference of the time values over the milliseconds of a day. *)
Lemma enrich_avgDays_valid (it : object) (e : enriched) (tp tr : Z) :
  enrich it = Ok e →
  poDateObj e = Some (mkDate (Some tp)) →
  receivedDateObj e = Some (mkDate (Some tr)) →
  avgDays e
  = Num.ceil (Num.div (Num.of_Z (tr - tp)) (Num.of_Z msPerDay)).
Proof.
  unfold enrich. intros He Hp Hr.
  destruct (parseDate (prop it "poDate")) as [p|]; [|done].
  destruct (parseDate (prop it "receivedDate")) as [r|]; [|done].
  cbn in He. injection He as <-. cbn in *. subst p r.
  unfold getTime; cbn. do 2 f_equal.
  unfold Num.sub, Num.of_Z; cbn. f_equal.
  apply Qc_is_canon. cbn. rewrite !Qred_correct.
  unfold Qeq; cbn. lia.
Qed.

(** Enrichment returns on every record whose two dates are strings or
    falsy values (absent, [null], the empty string). *)
Lemma enrich_returns (it : object) :
  (∀ k, k = "poDate" ∨ k = "receivedDate" →
        (∃ s, prop it k = PStr s) ∨ ToBoolean (prop it k) = false) →
  ∃ e, enrich it = Ok e.
Proof.
  intros Hdates.
  assert (∀ k, k = "poDate" ∨ k = "receivedDate" →
               ∃ r, parseDate (prop it k) = Ok r) as Hparse.
  { intros k Hk. destruct (Hdates k Hk) as [[s ->]|Hf].
    - apply parseDate_string_returns.
    - unfold parseDate. rewrite Hf. by eexists. }
  unfold enrich.
  destruct (Hparse "poDate") as [p ->]; [by left|].
  destruct (Hparse "receivedDate") as [r ->]; [by right|].
  by eexists.
Qed.

(** C3: a record whose order date is ["a/b/c"] is enriched without an
    exception, its order date is an invalid date rather than [null], and
    its elapsed days are [NaN], not 0. *)
Theorem enrich_invalid_date_gives_NaN :
  ∃ e, enrich [("poDate", PStr "a/b/c"); ("receivedDate", PStr "05/01/2024")]
       = Ok e
       ∧ poDateObj e = Some (mkDate None)
       ∧ avgDays e = NaN.
Proof.
  eexists. split; [reflexivity|]. split; [reflexivity|].
  cbn [avgDays]. rewrite sub_NaN_r. reflexivity.
Qed.

End Enrich.

(** A date that is a number, not a string, makes the enrichment throw. *)
Example enrich_numeric_date_throws :
  enrich (H := ExampleHost.utc) [("poDate", PNum (Num.of_Z 20240101))]
  = Throw (TypeError "dateString.split is not a function").
Proof. reflexivity. Qed.

(** ** Ingestion *)

Section Ingestion.
Context `{Host}.

Lemma processData_not_array (p : payload) :
  (∀ items, p ≠ PArray items) →
  processData p = Throw (TypeError "this.data.map is not a function").
Proof. destruct p; [done| |done]. intros Hp. by destruct (Hp items). Qed.

(** Loading an empty array: every step completes and the view is empty. *)
Lemma loadData_of_empty (f : filters) (st : state) (p : payload) :
  ingest p = Ok (PArray []) →
  loadData f st p
  = Ok ({| data := []; filteredData := []; sortColumn := sortColumn st;
           sortDirection := sortDirection st |}, empty_statistics).
Proof. unfold loadData. by intros ->. Qed.

(** The two shapes the ingestion is written for are taken as they are. *)
Lemma ingest_of_array (items : list object) :
  ingest (PArray items) = Ok (PArray items).
Proof. done. Qed.

Lemma ingest_of_data_array (items : list object) :
  ingest (PObject [("data", PArray items)]) = Ok (PArray items).
Proof. done. Qed.


End Ingestion.



(** ** The order on numbers *)

Lemma Qc_ltb_lt (x y : Qc) : Num.Qc_ltb x y = true ↔ (x < y)%Qc.
Proof.
  unfold Num.Qc_ltb. rewrite Qclt_alt.
  destruct (x ?= y)%Qc; split; congruence.
Qed.

Lemma Qc_ltb_irrefl (x : Qc) : Num.Qc_ltb x x = false.
Proof.
  destruct (Num.Qc_ltb x x) eqn:E; [|done].
  apply Qc_ltb_lt in E. by destruct (Qclt_not_eq _ _ E).
Qed.

Lemma ltb_irrefl (a : number) : Num.ltb a a = false.
Proof. destruct a; cbn; auto using Qc_ltb_irrefl. Qed.

Lemma ltb_asym (a b : number) : Num.ltb a b = true → Num.ltb b a = false.
Proof.
  destruct a, b; cbn; try done.
  intros Hab. destruct (Num.Qc_ltb q0 q) eqn:Hba; [|done].
  apply Qc_ltb_lt in Hab, Hba.
  destruct (Qclt_not_le _ _ Hab). by apply Qclt_le_weak.
Qed.

Lemma ltb_trans (a b c : number) :
  Num.ltb a b = true → Num.ltb b c = true → Num.ltb a c = true.
Proof.
  destruct a, b, c; cbn; try done.
  rewrite !Qc_ltb_lt. apply Qclt_trans.
Qed.

(** Two numbers of which neither is below the other are equal, unless
    one is [NaN]. *)
Lemma ltb_neither (a b : number) :
  a ≠ NaN → b ≠ NaN →
  Num.ltb a b = false → Num.ltb b a = false → a = b.
Proof.
  destruct a, b; cbn; try done.
  intros _ _ Hab Hba. f_equal. apply Qcle_antisym; apply Qcnot_lt_le.
  - intros Hlt. apply Qc_ltb_lt in Hlt. congruence.
  - intros Hlt. apply Qc_ltb_lt in Hlt. congruence.
Qed.

Lemma ltb_NaN_l (a : number) : Num.ltb NaN a = false.
Proof. done. Qed.

Lemma ltb_NaN_r (a : number) : Num.ltb a NaN = false.
Proof. by destruct a. Qed.

Lemma of_Z_ltb (x y : Z) : Num.ltb (Num.of_Z x) (Num.of_Z y) = (x <? y).
Proof.
  cbn. unfold Num.Qc_ltb, Qccompare, Qc_of_Z; cbn.
  unfold Qcompare; cbn. rewrite !Z.mul_1_r.
  unfold Z.ltb. by destruct (x ?= y).
Qed.

(** ** The filter *)

Section Filter.
Context `{Host}.

Lemma before_bound_null (bound : string) : before_bound bound None = false.
Proof. unfold before_bound. by destruct (negb _). Qed.

Lemma after_bound_null (bound : string) : after_bound bound None = false.
Proof. unfold after_bound. by destruct (negb _). Qed.

Lemma before_bound_empty (obj : option Date) : before_bound "" obj = false.
Proof. done. Qed.

Lemma after_bound_empty (obj : option Date) : after_bound "" obj = false.
Proof. done. Qed.

(** A bound rejects only a record that has a valid date strictly outside
    a valid bound. *)
Lemma before_bound_rejects (bound : string) (obj : option Date) :
  before_bound bound obj = true →
  bound ≠ "" ∧
  ∃ t b, obj = Some (mkDate (Some t))
         ∧ Date_of_string bound = mkDate (Some b) ∧ t < b.
Proof.
  unfold before_bound. intros [Hb Hlt]%andb_true_iff. split.
  - intros ->. done.
  - destruct obj as [[[t|]]|]; [|done..].
    destruct (Date_of_string bound) as [[b|]]; [|done].
    exists t, b. unfold getTime in Hlt; cbn [tv] in Hlt.
    rewrite of_Z_ltb in Hlt. split; [done|]. split; [done|]. lia.
Qed.

Lemma after_bound_rejects (bound : string) (obj : option Date) :
  after_bound bound obj = true →
  bound ≠ "" ∧
  ∃ t b, obj = Some (mkDate (Some t))
         ∧ Date_of_string bound = mkDate (Some b) ∧ b < t.
Proof.
  unfold after_bound, Num.gtb. intros [Hb Hlt]%andb_true_iff. split.
  - intros ->. done.
  - destruct obj as [[[t|]]|]; [|by rewrite ltb_NaN_r in Hlt|done].
    destruct (Date_of_string bound) as [[b|]]; [|done].
    exists t, b. unfold getTime in Hlt; cbn [tv] in Hlt.
    rewrite of_Z_ltb in Hlt. split; [done|]. split; [done|]. lia.
Qed.

(** What [filter] keeps when no callback throws: the records the
    callback answers [true] on. *)
Lemma filter_res_elem_of {A : Type} (f : A → res bool) (l l' : list A)
    (x : A) :
  filter_res f l = Ok l' → x ∈ l' ↔ x ∈ l ∧ f x = Ok true.
Proof.
  revert l'. induction l as [|y r IH]; intros l'; cbn.
  - intros [= <-]. rewrite elem_of_nil. tauto.
  - destruct (f y) as [b|] eqn:Hy; [|done]. cbn.
    destruct (filter_res f r) as [ys|]; [|done]. cbn. intros [= <-].
    specialize (IH ys eq_refl). destruct b.
    + rewrite !elem_of_cons, IH. split.
      * intros [->|[? ?]]; auto.
      * intros [[->|?] ?]; auto.
    + rewrite elem_of_cons, IH. split; [tauto|].
      intros [[->|?] ?]; [congruence|tauto].
Qed.

(** The view [applyFilters] leaves: the records of the data the callback
    keeps. *)
Lemma applyFilters_elem_of (f : filters) (st st' : state) (a : enriched) :
  applyFilters f st = Ok st' →
  a ∈ filteredData st' ↔ a ∈ data st ∧ keeps (lower_needles f) a = Ok true.
Proof.
  unfold applyFilters. intros Hf.
  destruct (filter_res _ (data st)) as [view|] eqn:Hfr; [|done].
  cbn in Hf. injection Hf as <-. cbn. by apply filter_res_elem_of.
Qed.

(** C5: a record whose order date (received date) is [null] is kept or
    dropped exactly as if the two bounds on that date were empty, whatever
    they are, and so is in the view whenever it passes the other
    constraints; and a bound drops a record only when the record has a
    valid date that lies strictly outside a valid bound. *)
Theorem unparsed_date_passes_date_bounds (f : filters) (a : enriched) :
  (poDateObj a = None →
   before_bound (poDateFrom f) (poDateObj a) = false
   ∧ after_bound (poDateTo f) (poDateObj a) = false
   ∧ keeps f a = keeps (with_po_bounds "" "" f) a)
  ∧ (receivedDateObj a = None →
     before_bound (rcvDateFrom f) (receivedDateObj a) = false
     ∧ after_bound (rcvDateTo f) (receivedDateObj a) = false
     ∧ keeps f a = keeps (with_rcv_bounds "" "" f) a)
  ∧ (∀ st st',
       poDateObj a = None → a ∈ data st →
       applyFilters f st = Ok st' →
       a ∈ filteredData st'
       ↔ keeps (lower_needles (with_po_bounds "" "" f)) a = Ok true)
  ∧ (∀ st st',
       receivedDateObj a = None → a ∈ data st →
       applyFilters f st = Ok st' →
       a ∈ filteredData st'
       ↔ keeps (lower_needles (with_rcv_bounds "" "" f)) a = Ok true)
  ∧ (∀ bound obj,
       before_bound bound obj = true →
       ∃ t b, obj = Some (mkDate (Some t))
              ∧ Date_of_string bound = mkDate (Some b) ∧ t < b)
  ∧ (∀ bound obj,
       after_bound bound obj = true →
       ∃ t b, obj = Some (mkDate (Some t))
              ∧ Date_of_string bound = mkDate (Some b) ∧ b < t).
Proof.
  assert (poDateObj a = None → ∀ g, keeps g a = keeps (with_po_bounds "" "" g) a)
    as Hpo.
  { intros Hnull g. unfold keeps; cbn. rewrite Hnull.
    by rewrite before_bound_null, after_bound_null. }
  assert (receivedDateObj a = None →
          ∀ g, keeps g a = keeps (with_rcv_bounds "" "" g) a) as Hrcv.
  { intros Hnull g. unfold keeps; cbn. rewrite Hnull.
    by rewrite before_bound_null, after_bound_null. }
  assert (∀ g st st',
            a ∈ data st → applyFilters f st = Ok st' →
            keeps (lower_needles f) a = keeps (lower_needles g) a →
            a ∈ filteredData st' ↔ keeps (lower_needles g) a = Ok true)
    as Hview.
  { intros g st st' Hin Hf Hsame.
    rewrite (applyFilters_elem_of _ _ _ _ Hf), Hsame. tauto. }
  split; [|split; [|split; [|split; [|split]]]].
  - intros Hnull. rewrite Hnull at 1 2.
    by rewrite before_bound_null, after_bound_null, <-Hpo.
  - intros Hnull. rewrite Hnull at 1 2.
    by rewrite before_bound_null, after_bound_null, <-Hrcv.
  - intros st st' Hnull Hin Hf. apply (Hview _ st st' Hin Hf).
    apply (Hpo Hnull (lower_needles f)).
  - intros st st' Hnull Hin Hf. apply (Hview _ st st' Hin Hf).
    apply (Hrcv Hnull (lower_needles f)).
  - intros bound obj Hr. by apply before_bound_rejects in Hr as [_ ?].
  - intros bound obj Hr. by apply after_bound_rejects in Hr as [_ ?].
Qed.

(** A bound whose date has the time value of the record's date does not
    reject the record. *)
Lemma bound_equal_passes (bound : string) (d : Date) :
  getTime (Date_of_string bound) = getTime d →
  before_bound bound (Some d) = false ∧ after_bound bound (Some d) = false.
Proof.
  unfold before_bound, after_bound, Num.gtb. intros ->.
  rewrite ltb_irrefl. by destruct (negb _).
Qed.


End Filter.

(** The needles of the scenario: a part of the supplier's name in any
    case keeps the record, a text that is no part of it drops it. *)
Example supplier_needle_keeps :
  applyFilters (H := ExampleHost.utc)
    {| poDateFrom := ""; poDateTo := ""; rcvDateFrom := ""; rcvDateTo := "";
       supplierSearch := "ACM"; contractSearch := ""; itemCodeSearch := "" |}
    {| data := [Sample.po1_enriched]; filteredData := [];
       sortColumn := None; sortDirection := asc |}
  = Ok {| data := [Sample.po1_enriched];
          filteredData := [Sample.po1_enriched];
          sortColumn := None; sortDirection := asc |}.
Proof. run_eq. Qed.

Example supplier_needle_drops :
  applyFilters (H := ExampleHost.utc)
    {| poDateFrom := ""; poDateTo := ""; rcvDateFrom := ""; rcvDateTo := "";
       supplierSearch := "zzz"; contractSearch := ""; itemCodeSearch := "" |}
    {| data := [Sample.po1_enriched]; filteredData := [];
       sortColumn := None; sortDirection := asc |}
  = Ok {| data := [Sample.po1_enriched]; filteredData := [];
          sortColumn := None; sortDirection := asc |}.
Proof. run_eq. Qed.

(** A needle on a record without that property makes the filter throw. *)
Example needle_on_missing_property_throws :
  applyFilters (H := ExampleHost.utc)
    {| poDateFrom := ""; poDateTo := ""; rcvDateFrom := ""; rcvDateTo := "";
       supplierSearch := "acme"; contractSearch := "";
       itemCodeSearch := "" |}
    {| data := [Sample.undated]; filteredData := [];
       sortColumn := None; sortDirection := asc |}
  = Throw (TypeError
             "Cannot read properties of undefined (reading 'toLowerCase')").
Proof. reflexivity. Qed.

(** C5 on a record with no order date, under bounds no date satisfies. *)
Lemma undated_record_is_kept :
  keeps (H := ExampleHost.utc) Sample.in_2030 Sample.undated = Ok true.
Proof.
  pose proof (unparsed_date_passes_date_bounds (H := ExampleHost.utc)
                Sample.in_2030 Sample.undated) as [Hpo _].
  destruct (Hpo eq_refl) as (_ & _ & ->). reflexivity.
Defined.


(** ** [Array_sort] with a comparator *)

Section ArraySort.
Context {A : Type} (cmp : A → A → Z).

Lemma insert_by_perm (x : A) (l : list A) : insert_by cmp x l ≡ₚ x :: l.
Proof.
  induction l as [|y r IH]; cbn; [done|].
  destruct (0 <? cmp x y); [|done].
  rewrite IH. apply Permutation_swap.
Qed.

Lemma Array_sort_perm (l : list A) : Array_sort cmp l ≡ₚ l.
Proof.
  induction l as [|x r IH]; cbn; [done|].
  by rewrite insert_by_perm, IH.
Qed.

Lemma Array_sort_elem_of (x : A) (l : list A) :
  x ∈ Array_sort cmp l ↔ x ∈ l.
Proof. by rewrite Array_sort_perm. Qed.

Lemma Array_sort_length (l : list A) :
  List.length (Array_sort cmp l) = List.length l.
Proof. by rewrite Array_sort_perm. Qed.

(** An element the comparator puts after every element of the list goes
    to its end. *)
Lemma insert_by_last (x : A) (l : list A) :
  Forall (λ y, 0 < cmp x y) l → insert_by cmp x l = (l ++ [x])%list.
Proof.
  induction 1 as [|y r Hy _ IH]; cbn; [done|].
  apply Z.ltb_lt in Hy. by rewrite Hy, IH.
Qed.

(** A list in strictly decreasing order is reversed. *)
Lemma Array_sort_reverses (l : list A) :
  StronglySorted (λ a b, 0 < cmp a b) l → Array_sort cmp l = rev l.
Proof.
  induction 1 as [|x r _ IH Hx]; cbn; [done|].
  rewrite IH. apply insert_by_last.
  rewrite Forall_forall in Hx |- *. intros y Hy. apply Hx.
  apply list_elem_of_In, in_rev. by apply list_elem_of_In.
Qed.

(** On a list the comparator orders consistently, the result is sorted:
    no element is put after one the comparator places after it. *)
Lemma Array_sort_sorted (l : list A) :
  (∀ a b, a ∈ l → b ∈ l → 0 < cmp a b → cmp b a ≤ 0) →
  (∀ a b c, a ∈ l → b ∈ l → c ∈ l →
            cmp a b ≤ 0 → cmp b c ≤ 0 → cmp a c ≤ 0) →
  StronglySorted (λ a b, cmp a b ≤ 0) (Array_sort cmp l).
Proof.
  induction l as [|x r IH]; intros Hanti Htrans; cbn; [constructor|].
  assert (StronglySorted (λ a b, cmp a b ≤ 0) (Array_sort cmp r)) as Hs.
  { apply IH.
    - intros a b Ha Hb. apply Hanti; by right.
    - intros a b c Ha Hb Hc. apply Htrans; by right. }
  assert (∀ y, y ∈ Array_sort cmp r → y ∈ r) as Hin.
  { intros y. by rewrite Array_sort_elem_of. }
  clear IH. induction (Array_sort cmp r) as [|y s IHs]; cbn.
  - repeat constructor.
  - apply StronglySorted_cons in Hs as [Hy Hs].
    destruct (0 <? cmp x y) eqn:Hxy.
    + apply Z.ltb_lt in Hxy. apply StronglySorted_cons. split.
      * rewrite insert_by_perm. constructor; [|done].
        apply Hanti; [by left|right; apply Hin; by left|done].
      * apply IHs; [done|]. intros z Hz. apply Hin. by right.
    + apply Z.ltb_ge in Hxy. apply StronglySorted_cons. split.
      * constructor; [done|].
        rewrite Forall_forall in Hy |- *. intros z Hz.
        apply (Htrans x y z); [by left|right; apply Hin; by left| |done|].
        -- right. apply Hin. by right.
        -- by apply Hy.
      * by apply StronglySorted_cons.
Qed.

End ArraySort.

(** ** The comparator of [sortTable] *)

Lemma Str_ltb_irrefl (s : string) : Str.ltb s s = false.
Proof.
  unfold Str.ltb. pose proof (String.compare_antisym s s) as Hc.
  by destruct (String.compare s s).
Qed.

Lemma Str_ltb_asym (s t : string) : Str.ltb s t = true → Str.ltb t s = false.
Proof.
  unfold Str.ltb. rewrite (String.compare_antisym s t).
  by destruct (String.compare t s).
Qed.

Lemma js_lt_irrefl (x : value) : js_lt x x = false.
Proof.
  unfold js_lt. destruct (ToPrimitive x);
    auto using ltb_irrefl, Str_ltb_irrefl.
Qed.

Lemma js_lt_asym (x y : value) : js_lt x y = true → js_lt y x = false.
Proof.
  unfold js_lt. destruct (ToPrimitive x), (ToPrimitive y);
    auto using ltb_asym, Str_ltb_asym.
Qed.

Lemma key_lt_irrefl (column : string) (a : enriched) :
  key_lt column a a = false.
Proof. apply js_lt_irrefl. Qed.

Lemma key_lt_asym (column : string) (a b : enriched) :
  key_lt column a b = true → key_lt column b a = false.
Proof. apply js_lt_asym. Qed.

Lemma compareFn_asc_pos (column : string) (a b : enriched) :
  0 < compareFn column asc a b ↔ key_lt column b a = true.
Proof.
  unfold compareFn. fold (key_lt column a b) (key_lt column b a).
  destruct (key_lt column a b) eqn:Hab.
  - rewrite (key_lt_asym _ _ _ Hab). split; [lia|done].
  - destruct (key_lt column b a); split; done || lia.
Qed.

Lemma compareFn_desc_pos (column : string) (a b : enriched) :
  0 < compareFn column desc a b ↔ key_lt column a b = true.
Proof.
  unfold compareFn. fold (key_lt column a b) (key_lt column b a).
  destruct (key_lt column a b) eqn:Hab; [split; done || lia|].
  destruct (key_lt column b a); split; done || lia.
Qed.

Lemma compareFn_asc_le (column : string) (a b : enriched) :
  compareFn column asc a b ≤ 0 ↔ key_lt column b a = false.
Proof.
  pose proof (compareFn_asc_pos column a b) as Hp.
  destruct (key_lt column b a); split; intros Hle; try done.
  - destruct Hp as [_ Hp]. specialize (Hp eq_refl). lia.
  - destruct (Z.lt_ge_cases 0 (compareFn column asc a b)) as [Hlt|]; [|lia].
    by apply Hp in Hlt.
Qed.

Lemma compareFn_desc_le (column : string) (a b : enriched) :
  compareFn column desc a b ≤ 0 ↔ key_lt column a b = false.
Proof.
  pose proof (compareFn_desc_pos column a b) as Hp.
  destruct (key_lt column a b); split; intros Hle; try done.
  - destruct Hp as [_ Hp]. specialize (Hp eq_refl). lia.
  - destruct (Z.lt_ge_cases 0 (compareFn column desc a b)) as [Hlt|]; [|lia].
    by apply Hp in Hlt.
Qed.

(** The comparator is antisymmetric, whatever the keys are. *)
Lemma compareFn_pos_le (column : string) (dir : direction) (a b : enriched) :
  0 < compareFn column dir a b → compareFn column dir b a ≤ 0.
Proof.
  destruct dir.
  - rewrite compareFn_asc_pos, compareFn_asc_le. apply key_lt_asym.
  - rewrite compareFn_desc_pos, compareFn_desc_le. apply key_lt_asym.
Qed.

(** For the comparator, "may stay before" in one direction and "must go
    after" in the other, in terms of the comparison of the keys. *)
Lemma compareFn_le (column : string) (dir : direction) (a b : enriched) :
  compareFn column dir a b ≤ 0
  ↔ match dir with
    | asc => key_lt column b a = false
    | desc => key_lt column a b = false
    end.
Proof. destruct dir; [apply compareFn_asc_le|apply compareFn_desc_le]. Qed.

Lemma compareFn_flip_pos (column : string) (dir : direction)
    (a b : enriched) :
  0 < compareFn column (flip dir) a b
  ↔ match dir with
    | asc => key_lt column a b = true
    | desc => key_lt column b a = true
    end.
Proof. destruct dir; [apply compareFn_desc_pos|apply compareFn_asc_pos]. Qed.

(** ** Lists without ties *)

Lemma no_ties_spec (column : string) (l : list enriched) :
  no_ties column l = true →
  NoDup l
  ∧ ∀ a b, a ∈ l → b ∈ l → a ≠ b →
           key_lt column a b = true ∨ key_lt column b a = true.
Proof.
  induction l as [|x r IH]; cbn.
  - intros _. split; [constructor|]. intros a b Ha. by apply elem_of_nil in Ha.
  - intros [Hx Hr]%andb_true_iff. destruct (IH Hr) as [Hnd Hpair].
    rewrite forallb_forall in Hx.
    assert (∀ b, b ∈ r →
                 key_lt column x b = true ∨ key_lt column b x = true) as Hxb.
    { intros b Hb. apply orb_true_iff, Hx. by apply list_elem_of_In. }
    split.
    + constructor; [|done]. intros Hin.
      destruct (Hxb x Hin) as [E|E]; by rewrite key_lt_irrefl in E.
    + intros a b [->|Ha]%elem_of_cons [->|Hb]%elem_of_cons Hne.
      * done.
      * by apply Hxb.
      * destruct (Hxb a Ha); [by right|by left].
      * by apply Hpair.
Qed.

Lemma transitive_keys_spec (column : string) (l : list enriched) :
  transitive_keys column l = true →
  ∀ a b c, a ∈ l → b ∈ l → c ∈ l →
           key_lt column a b = true → key_lt column b c = true →
           key_lt column a c = true.
Proof.
  unfold transitive_keys. rewrite forallb_forall.
  intros Ht a b c Ha%list_elem_of_In Hb%list_elem_of_In Hc%list_elem_of_In
    Hab Hbc.
  specialize (Ht a Ha). rewrite forallb_forall in Ht.
  specialize (Ht b Hb). rewrite forallb_forall in Ht.
  specialize (Ht c Hc). by rewrite Hab, Hbc in Ht.
Qed.

Lemma StronglySorted_refine {A : Type} (R R' : A → A → Prop) (l : list A) :
  NoDup l →
  (∀ x y, x ∈ l → y ∈ l → x ≠ y → R x y → R' x y) →
  StronglySorted R l → StronglySorted R' l.
Proof.
  intros Hnd Himp Hs. induction Hs as [|x r Hs IH Hx]; [constructor|].
  apply NoDup_cons in Hnd as [Hxr Hnd]. constructor.
  - apply IH; [done|]. intros a b Ha Hb. apply Himp; by right.
  - rewrite Forall_forall in Hx |- *. intros y Hy.
    apply Himp; [by left|by right| |by apply Hx].
    intros ->. done.
Qed.

(** Sorting a list without ties, then sorting the result in the other
    direction, reverses it. *)
Lemma sort_then_sort_flipped (column : string) (dir : direction)
    (l : list enriched) :
  no_ties column l = true →
  transitive_keys column l = true →
  Array_sort (compareFn column (flip dir))
    (Array_sort (compareFn column dir) l)
  = rev (Array_sort (compareFn column dir) l).
Proof.
  intros [Hnd Hpair]%no_ties_spec Htr.
  pose proof (transitive_keys_spec _ _ Htr) as Htrans.
  assert (∀ a b, a ∈ l → b ∈ l → compareFn column dir a b ≤ 0 →
                 a = b ∨ match dir with
                         | asc => key_lt column a b = true
                         | desc => key_lt column b a = true
                         end) as Hstrict.
  { intros a b Ha Hb Hle. destruct (decide (a = b)) as [|Hne]; [by left|].
    right. apply compareFn_le in Hle.
    destruct (Hpair a b Ha Hb Hne), dir; congruence. }
  apply Array_sort_reverses.
  apply (StronglySorted_refine (λ a b, compareFn column dir a b ≤ 0)).
  - by rewrite Array_sort_perm.
  - intros x y Hx%Array_sort_elem_of Hy%Array_sort_elem_of Hne Hle.
    apply compareFn_flip_pos.
    by destruct (Hstrict x y Hx Hy Hle).
  - apply Array_sort_sorted.
    + intros a b _ _. apply compareFn_pos_le.
    + intros a b c Ha Hb Hc Hab Hbc.
      destruct (Hstrict a b Ha Hb Hab) as [->|Hab']; [done|].
      destruct (Hstrict b c Hb Hc Hbc) as [->|Hbc']; [done|].
      apply compareFn_le. destruct dir.
      * apply key_lt_asym. by apply (Htrans a b c).
      * apply key_lt_asym. by apply (Htrans c b a).
Qed.

(** ** Toggling the sort *)

(** In a numeric column the keys are numbers other than [NaN], which [<]
    orders: the comparison is transitive on every list. *)
Lemma numeric_keys_transitive (column : string) (l : list enriched) :
  numeric_column column = true → transitive_keys column l = true.
Proof.
  intros Hnum. unfold transitive_keys.
  assert (∀ a, ∃ n, sort_key column a = VPrim (PNum n)) as Hkey.
  { intros a. unfold sort_key. rewrite Hnum.
    assert (date_column column = false) as ->; [|by eexists].
    unfold numeric_column, date_column in *.
    repeat match type of Hnum with
           | (_ || _ = true) => apply orb_true_iff in Hnum as [Hnum|Hnum]
           end; apply String.eqb_eq in Hnum; by subst. }
  apply forallb_forall; intros a _. apply forallb_forall; intros b _.
  apply forallb_forall; intros c _. unfold key_lt.
  destruct (Hkey a) as [x ->], (Hkey b) as [y ->], (Hkey c) as [z ->].
  unfold js_lt; cbn.
  destruct (Num.ltb x y) eqn:Hxy, (Num.ltb y z) eqn:Hyz; cbn; try done.
  by rewrite (ltb_trans x y z).
Qed.

(** On a view without ties the sorted order is unique: whatever the
    engine's algorithm, a sort that returns the records in an order the
    comparator accepts returns what [Array_sort] returns. *)
Lemma sorted_view_is_unique (column : string) (dir : direction)
    (l l' : list enriched) :
  no_ties column l = true →
  transitive_keys column l = true →
  l' ≡ₚ l →
  StronglySorted (λ a b, compareFn column dir a b ≤ 0) l' →
  l' = Array_sort (compareFn column dir) l.
Proof.
  intros Hties Htr Hperm Hsorted.
  destruct (no_ties_spec _ _ Hties) as [Hnd Hpair].
  pose proof (transitive_keys_spec _ _ Htr) as Htrans.
  apply (StronglySorted_unique_strong
           (λ a b, compareFn column dir a b ≤ 0)); [|done| |].
  - intros x y Hx Hy Hxy Hyx. rewrite Hperm in Hx.
    apply Array_sort_elem_of in Hy.
    destruct (decide (x = y)) as [|Hne]; [done|].
    apply compareFn_le in Hxy, Hyx.
    destruct (Hpair x y Hx Hy Hne), dir; congruence.
  - apply Array_sort_sorted.
    + intros a b _ _. apply compareFn_pos_le.
    + intros a b c Ha Hb Hc Hab Hbc.
      destruct (decide (a = b)) as [->|Hab']; [done|].
      destruct (decide (b = c)) as [->|Hbc']; [done|].
      apply compareFn_le in Hab, Hbc. apply compareFn_le.
      destruct (Hpair a b Ha Hb Hab'), (Hpair b c Hb Hc Hbc'), dir;
        try congruence; apply key_lt_asym; eauto.
  - by rewrite Array_sort_perm.
Qed.

(** C8, as the code has it: a call on the current sort column flips the
    direction, a call on another column sets it to ascending; and a
    second call on the same column, made on the view the first call left,
    gives the exact reverse of that view, provided no two records of the
    view tie and the comparison of their keys is transitive. *)
Theorem sort_toggle_reverses (column : string) (st : state) :
  (sortColumn st = Some column →
   sortDirection (sortTable column st) = flip (sortDirection st))
  ∧ (sortColumn st ≠ Some column →
     sortDirection (sortTable column st) = asc)
  ∧ sortColumn (sortTable column st) = Some column
  ∧ (no_ties column (filteredData st) = true →
     transitive_keys column (filteredData st) = true →
     filteredData (sortTable column (sortTable column st))
     = rev (filteredData (sortTable column st))).
Proof.
  split; [|split; [|split]].
  - intros Hc. unfold sortTable; cbn. by rewrite bool_decide_eq_true_2.
  - intros Hc. unfold sortTable; cbn. by rewrite bool_decide_eq_false_2.
  - done.
  - intros Hties Htrans. unfold sortTable at 1 3; cbn.
    rewrite bool_decide_eq_true_2 by done.
    unfold sortTable; cbn. by apply sort_then_sort_flipped.
Qed.

(** C8 on the three orders: sorted by ["sla"], then sorted again. *)
Lemma three_orders_toggle :
  filteredData (sortTable "sla" (sortTable "sla" Sample.loaded))
  = rev (filteredData (sortTable "sla" Sample.loaded)).
Proof.
  apply (sort_toggle_reverses "sla" Sample.loaded); vm_compute; reflexivity.
Defined.

(** C8 as stated fails when the view was filtered again after the first
    sort: the column is still the current sort column and the three keys
    differ, yet the second call gives the descending order, which is not
    the reverse of the order the view had. *)
Lemma sort_after_refilter_is_not_reverse :
  loadData (H := ExampleHost.utc) Sample.no_filters initial
    Sample.three_orders
  = Ok (Sample.loaded,
        {| totalPO := 3; totalItems := 3; avgSLA := Num.of_Z 20;
           avgDaysMean := Num.zero |})
  ∧ applyFilters (H := ExampleHost.utc) Sample.no_filters
      (sortTable "sla" Sample.loaded)
    = Ok Sample.refiltered
  ∧ sortColumn Sample.refiltered = Some "sla"
  ∧ NoDup (map (sort_key "sla") (filteredData Sample.refiltered))
  ∧ no_ties "sla" (filteredData Sample.refiltered) = true
  ∧ sortDirection (sortTable "sla" Sample.refiltered) = desc
  ∧ filteredData Sample.refiltered
    = [Sample.filled "PO-A" "10" 10; Sample.filled "PO-B" "30" 30;
       Sample.filled "PO-C" "20" 20]
  ∧ filteredData (sortTable "sla" Sample.refiltered)
    = [Sample.filled "PO-B" "30" 30; Sample.filled "PO-C" "20" 20;
       Sample.filled "PO-A" "10" 10]
  ∧ filteredData (sortTable "sla" Sample.refiltered)
    ≠ rev (filteredData Sample.refiltered).
Proof. repeat split; run_decide. Qed.

(** Keys that differ need not compare: a string that holds no number and
    a number are neither below nor above each other, the comparator
    answers 0 on them, and both calls leave the view as it is. *)
Example distinct_keys_can_tie :
  NoDup (map (sort_key "nomorPO") (filteredData Sample.mixed_numbers))
  ∧ no_ties "nomorPO" (filteredData Sample.mixed_numbers) = false
  ∧ filteredData (sortTable "nomorPO" Sample.mixed_numbers)
    = filteredData Sample.mixed_numbers
  ∧ filteredData (sortTable "nomorPO"
                    (sortTable "nomorPO" Sample.mixed_numbers))
    = filteredData Sample.mixed_numbers.
Proof. repeat split; run_decide. Qed.

(** ** Sorting by a date column *)

Lemma date_column_cases (column : string) :
  date_column column = true → column = "poDate" ∨ column = "receivedDate".
Proof.
  unfold date_column. intros [Hc|Hc]%orb_true_iff;
    apply String.eqb_eq in Hc; auto.
Qed.

(** The key of a date column is the parsed date, or the epoch for a
    record that has none. *)
Lemma sort_key_date (column : string) (a : enriched) :
  date_column column = true →
  sort_key column a = VDate (default Date_epoch (dateObj_of column a)).
Proof.
  intros [-> | ->]%date_column_cases; unfold sort_key, dateObj_of; cbn.
  - change ("poDate" +:+ "Obj") with "poDateObj".
    unfold get; cbn. by destruct (poDateObj a).
  - change ("receivedDate" +:+ "Obj") with "receivedDateObj".
    unfold get; cbn. by destruct (receivedDateObj a).
Qed.

Lemma key_lt_date (column : string) (a b : enriched) :
  date_column column = true →
  date_is_valid column a → date_is_valid column b →
  key_lt column a b = (time_key column a <? time_key column b).
Proof.
  intros Hc Ha Hb. unfold key_lt, date_is_valid, time_key in *.
  rewrite !sort_key_date by done.
  destruct (dateObj_of column a) as [[[ta|]]|],
           (dateObj_of column b) as [[[tb|]]|]; try done;
    unfold js_lt, getTime; cbn; apply of_Z_ltb.
Qed.

Lemma no_invalid_date_spec (column : string) (l : list enriched) :
  no_invalid_date column l = true → ∀ a, a ∈ l → date_is_valid column a.
Proof.
  unfold no_invalid_date, date_is_valid. rewrite forallb_forall.
  intros Hl a Ha%list_elem_of_In Hinv. specialize (Hl a Ha).
  by rewrite Hinv in Hl.
Qed.

Lemma StronglySorted_lookup {A : Type} (R : A → A → Prop) (l : list A)
    (i j : nat) (x y : A) :
  StronglySorted R l → l !! i = Some x → l !! j = Some y → (i < j)%nat →
  R x y.
Proof.
  intros Hs. revert i j. induction Hs as [|z r Hs IH Hz]; intros i j Hi Hj Hlt.
  - by rewrite lookup_nil in Hi.
  - destruct j as [|j]; [lia|]. cbn in Hj. destruct i as [|i]; cbn in Hi.
    + injection Hi as ->. rewrite Forall_forall in Hz. apply Hz.
      by apply list_elem_of_lookup_2 in Hj.
    + apply (IH i j); [done..|lia].
Qed.

(** The view a date column is sorted on, when it holds no invalid date,
    is in the order of the time keys. *)
Lemma date_sort_sorted (column : string) (dir : direction)
    (l : list enriched) :
  date_column column = true →
  no_invalid_date column l = true →
  StronglySorted
    (λ a b, match dir with
            | asc => time_key column a ≤ time_key column b
            | desc => time_key column b ≤ time_key column a
            end)
    (Array_sort (compareFn column dir) l).
Proof.
  intros Hc Hvalid. pose proof (no_invalid_date_spec _ _ Hvalid) as Hv.
  assert (∀ a b, a ∈ l → b ∈ l →
            compareFn column dir a b ≤ 0
            ↔ match dir with
              | asc => time_key column a ≤ time_key column b
              | desc => time_key column b ≤ time_key column a
              end) as Hle.
  { intros a b Ha Hb. rewrite compareFn_le.
    destruct dir; rewrite key_lt_date by auto; apply Z.ltb_ge. }
  assert (StronglySorted (λ a b, compareFn column dir a b ≤ 0)
            (Array_sort (compareFn column dir) l)) as Hs.
  { apply Array_sort_sorted.
    - intros a b _ _. apply compareFn_pos_le.
    - intros a b c Ha Hb Hc'. rewrite !Hle by done. destruct dir; lia. }
  assert (∀ x, x ∈ Array_sort (compareFn column dir) l → x ∈ l) as Hin.
  { intros x. by rewrite Array_sort_elem_of. }
  induction Hs as [|x r Hs IH Hx]; [constructor|]. constructor.
  - apply IH. intros y Hy. apply Hin. by right.
  - rewrite Forall_forall in Hx |- *. intros y Hy.
    apply Hle; [apply Hin; by left|apply Hin; by right|by apply Hx].
Qed.

(** C4, as the code has it: a record with no parsed date sorts as the
    epoch, 1 January 1970.  On a view without invalid dates, in ascending
    order it stands before every record dated after the epoch and after
    every record dated before it; in descending order the other way
    round. *)
Theorem unparsed_dates_sort_as_epoch (column : string) (st : state) :
  date_column column = true →
  (∀ a, dateObj_of column a = None → sort_key column a = VDate Date_epoch)
  ∧ (no_invalid_date column (filteredData st) = true →
     ∀ (i j : nat) (x y : enriched) (t : Z),
       filteredData (sortTable column st) !! i = Some x →
       filteredData (sortTable column st) !! j = Some y →
       dateObj_of column x = None →
       dateObj_of column y = Some (mkDate (Some t)) →
       match sortDirection (sortTable column st) with
       | asc => (0 < t → (i < j)%nat) ∧ (t < 0 → (j < i)%nat)
       | desc => (0 < t → (j < i)%nat) ∧ (t < 0 → (i < j)%nat)
       end).
Proof.
  intros Hc. split.
  - intros a Ha. by rewrite sort_key_date, Ha.
  - intros Hvalid i j x y t Hi Hj Hx Hy.
    unfold sortTable in *; cbn in *.
    set (dir := if bool_decide (sortColumn st = Some column)
                then flip (sortDirection st) else asc) in *.
    pose proof (date_sort_sorted column dir _ Hc Hvalid) as Hs.
    assert (time_key column x = 0) as Hkx by (unfold time_key; by rewrite Hx).
    assert (time_key column y = t) as Hky by (unfold time_key; by rewrite Hy).
    assert (i ≠ j) as Hij.
    { intros ->. rewrite Hi in Hj. injection Hj as ->. congruence. }
    assert ((i < j)%nat →
            match dir with asc => 0 ≤ t | desc => t ≤ 0 end) as Hfwd.
    { intros Hlt. pose proof (StronglySorted_lookup _ _ _ _ _ _ Hs Hi Hj Hlt).
      destruct dir; lia. }
    assert ((j < i)%nat →
            match dir with asc => t ≤ 0 | desc => 0 ≤ t end) as Hbwd.
    { intros Hlt. pose proof (StronglySorted_lookup _ _ _ _ _ _ Hs Hj Hi Hlt).
      destruct dir; lia. }
    destruct dir; split; intros Ht;
      destruct (Nat.lt_total i j) as [?|[?|?]]; try done; lia.
Qed.

(** C4 on two records dated in the year 2024 and not at all: sorted by
    the order date, the undated record (second in the view) comes first. *)
Lemma undated_before_2024 :
  filteredData (sortTable "poDate" Sample.recent) !! 0%nat
  = Some Sample.undated
  ∧ filteredData (sortTable "poDate" Sample.recent) !! 1%nat
    = Some Sample.po1_enriched
  ∧ (0 < 1)%nat.
Proof.
  split; [reflexivity|]. split; [reflexivity|].
  pose proof (unparsed_dates_sort_as_epoch "poDate" Sample.recent eq_refl)
    as [_ Hsort].
  exact (proj1 (Hsort eq_refl 0%nat 1%nat Sample.undated Sample.po1_enriched
                  1704067200000 eq_refl eq_refl eq_refl eq_refl)
           eq_refl).
Defined.

(** C4 as stated fails before 1970: of two records, one ordered on
    1 January 1960 and one with no order date, the ascending sort on the
    order date puts the dated one first. *)
Lemma undated_after_1960 :
  loadData (H := ExampleHost.utc) Sample.no_filters initial
    Sample.two_deliveries
  = Ok (Sample.deliveries,
        {| totalPO := 2; totalItems := 2; avgSLA := Num.zero;
           avgDaysMean := Num.zero |})
  ∧ poDateObj Sample.ordered_1960 = Some (mkDate (Some (-315619200000)))
  ∧ poDateObj Sample.order_date_missing = None
  ∧ sortDirection (sortTable "poDate" Sample.deliveries) = asc
  ∧ filteredData (sortTable "poDate" Sample.deliveries)
    = [Sample.ordered_1960; Sample.order_date_missing].
Proof. repeat split; run_decide. Qed.

(** ** The summary *)

Lemma add_assoc (a b c : number) :
  Num.add a (Num.add b c) = Num.add (Num.add a b) c.
Proof. destruct a, b, c; cbn; try done. f_equal. ring. Qed.

Lemma Qc_of_Z_0 : Qc_of_Z 0 = 0%Qc.
Proof. by apply Qc_is_canon. Qed.

Lemma add_zero_r (a : number) : Num.add a Num.zero = a.
Proof.
  unfold Num.zero, Num.of_Z. destruct a; cbn [Num.add]; try done.
  rewrite Qc_of_Z_0. f_equal. ring.
Qed.

Lemma add_zero_l (a : number) : Num.add Num.zero a = a.
Proof.
  unfold Num.zero, Num.of_Z. destruct a; cbn [Num.add]; try done.
  rewrite Qc_of_Z_0. f_equal. ring.
Qed.

(** The [reduce] of the code, from the left and from 0, is the sum. *)
Lemma reduce_is_sum {A : Type} (f : A → number) (l : list A) (acc : number) :
  fold_left (λ sum a, Num.add sum (f a)) l acc
  = Num.add acc (foldr Num.add Num.zero (map f l)).
Proof.
  revert acc. induction l as [|x r IH]; intros acc; cbn.
  - by rewrite add_zero_r.
  - by rewrite IH, add_assoc.
Qed.

Lemma average_is_mean {A : Type} (f : A → number) (l : list A) :
  (if (0 <? List.length l)%nat
   then Num.div (fold_left (λ sum a, Num.add sum (f a)) l Num.zero)
          (Num.of_nat (List.length l))
   else Num.zero)
  = mean (map f l).
Proof.
  destruct l as [|x r]; [done|].
  cbn [List.length Nat.ltb Nat.leb]. unfold mean.
  rewrite reduce_is_sum, add_zero_l. cbn [map List.length].
  by rewrite length_map.
Qed.

(** On finite values the mean of the language is the mean of rationals. *)
Lemma mean_of_finite (qs : list Qc) :
  qs ≠ [] → mean (map Fin qs) = Fin (arithmetic_mean qs).
Proof.
  intros Hne. destruct qs as [|q r]; [done|].
  unfold mean, arithmetic_mean. cbn [map].
  assert (∀ l, foldr Num.add Num.zero (map Fin l)
               = Fin (foldr Qcplus (Qc_of_Z 0) l)) as Hsum.
  { induction l as [|x l IH]; [done|]. cbn. by rewrite IH. }
  change (Fin q :: map Fin r) with (map Fin (q :: r)).
  rewrite Hsum, length_map. unfold Num.div, Num.of_nat, Num.of_Z.
  rewrite bool_decide_eq_false_2; [done|].
  intros Hz. apply (f_equal this) in Hz. cbn in Hz.
  unfold inject_Z in Hz. injection Hz as Hz. lia.
Qed.

(** Membership and absence of duplicates in the [Set] the code builds. *)
Lemma Set_of_spec (values acc : list prim) :
  NoDup acc →
  NoDup (fold_left Set_add values acc)
  ∧ ∀ v, v ∈ fold_left Set_add values acc ↔ v ∈ acc ∨ v ∈ values.
Proof.
  revert acc. induction values as [|x r IH]; intros acc Hnd; cbn.
  - split; [done|]. intros v. rewrite elem_of_nil. tauto.
  - unfold Set_add at 2 4. case_bool_decide as Hx.
    + destruct (IH acc Hnd) as [Hn Hin]. split; [done|].
      intros v. rewrite Hin, elem_of_cons. split; [tauto|].
      intros [?|[->|?]]; auto.
    + assert (NoDup (acc ++ [x])) as Hnd'.
      { apply NoDup_app. split; [done|]. split; [|apply NoDup_singleton].
        intros y Hy ->%list_elem_of_singleton. done. }
      destruct (IH _ Hnd') as [Hn Hin]. split; [done|].
      intros v. rewrite Hin, elem_of_app, list_elem_of_singleton, elem_of_cons.
      tauto.
Qed.

Lemma Set_size_is_cardinal (values : list prim) :
  List.length (Set_of values) = size (list_to_set values : gset prim).
Proof.
  destruct (Set_of_spec values [] (NoDup_nil_2)) as [Hnd Hin].
  fold (Set_of values) in Hnd, Hin.
  rewrite <-(size_list_to_set (C := gset prim) (Set_of values)) by done.
  f_equal. apply set_eq. intros v.
  rewrite !elem_of_list_to_set, Hin, elem_of_nil. tauto.
Qed.


(** The summary of the one record of the scenario. *)
Example summary_po1 :
  updateStatistics [Sample.po1_enriched]
  = {| totalPO := 1; totalItems := 1; avgSLA := Num.of_Z 80;
       avgDaysMean := Num.of_Z 4 |}.
Proof. run_eq. Qed.

(** ** The export *)

Section CsvExport.
Context `{Host}.

Lemma string_app_empty_r (s : string) : s +:+ "" = s.
Proof.
  induction s as [|c s IH]; [done|].
  change (String c (s +:+ "") = String c s). by rewrite IH.
Qed.

(** Joining with line breaks puts one break before every line but the
    first. *)
Lemma join_lines (first : string) (rest : list string) :
  Str.join newline (first :: rest)
  = first +:+ foldr (λ l acc, newline +:+ l +:+ acc) "" rest.
Proof.
  revert first. induction rest as [|l r IH]; intros first.
  - change (first = first +:+ EmptyString). by rewrite string_app_empty_r.
  - change (Str.join newline (first :: l :: r))
      with (first +:+ newline +:+ Str.join newline (l :: r)).
    rewrite IH. done.
Qed.


End CsvExport.

(** A record with a quote character in a cell is exported with that
    character as it is, between the two quotes of the cell. *)
Example export_pipe :
  exportToCSV (H := ExampleHost.utc) [Sample.pipe]
  = Some ("Nomor PO,Item Code,Item Name,Supplier Name,Contract/Principal,"
          +:+ "PO Date,Qty PO,PO Value,Received Date,Qty Received,"
          +:+ "Received Value,SLA (%),Avg Days" +:+ newline
          +:+ dquote +:+ "PO9" +:+ dquote +:+ ","
          +:+ dquote +:+ "undefined" +:+ dquote +:+ ","
          +:+ dquote +:+ "12" +:+ dquote +:+ " pipe" +:+ dquote +:+ ","
          +:+ dquote +:+ "undefined" +:+ dquote +:+ ","
          +:+ dquote +:+ "undefined" +:+ dquote +:+ ","
          +:+ dquote +:+ "undefined" +:+ dquote +:+ ","
          +:+ dquote +:+ "3" +:+ dquote +:+ ","
          +:+ dquote +:+ "undefined" +:+ dquote +:+ ","
          +:+ dquote +:+ "undefined" +:+ dquote +:+ ","
          +:+ dquote +:+ "undefined" +:+ dquote +:+ ","
          +:+ dquote +:+ "undefined" +:+ dquote +:+ ","
          +:+ dquote +:+ "50.00" +:+ dquote +:+ ","
          +:+ dquote +:+ "2" +:+ dquote).
Proof. vm_compute. reflexivity. Qed.

(** ** Printing a number with two decimals and reading it back *)

Lemma chars_app (s t : string) :
  Str.chars (s +:+ t) = (Str.chars s ++ Str.chars t)%list.
Proof.
  unfold Str.chars. induction s as [|c s IH]; [done|].
  change (c :: list_ascii_of_string (s +:+ t)
          = c :: (list_ascii_of_string s ++ list_ascii_of_string t)%list).
  by rewrite IH.
Qed.

Lemma dec_digit_char (d : Z) : 0 ≤ d < 10 → Str.dec_digit (digit_char d) = Some d.
Proof.
  intros Hd.
  assert (d = 0 ∨ d = 1 ∨ d = 2 ∨ d = 3 ∨ d = 4 ∨ d = 5 ∨ d = 6 ∨ d = 7
          ∨ d = 8 ∨ d = 9) as Hcases by lia.
  repeat destruct Hcases as [->|Hcases]; try done. by subst.
Qed.

Lemma digit_char_not_space (d : Z) :
  0 ≤ d < 10 → Str.is_space (digit_char d) = false.
Proof.
  intros Hd.
  assert (d = 0 ∨ d = 1 ∨ d = 2 ∨ d = 3 ∨ d = 4 ∨ d = 5 ∨ d = 6 ∨ d = 7
          ∨ d = 8 ∨ d = 9) as Hcases by lia.
  repeat destruct Hcases as [->|Hcases]; try done. by subst.
Qed.

Lemma digit_char_plain (d : Z) (r : list ascii) :
  0 ≤ d < 10 →
  Str.strip_sign (digit_char d :: r) = (false, digit_char d :: r)
  ∧ Str.strip_prefix (Str.chars "Infinity") (digit_char d :: r) = None.
Proof.
  intros Hd.
  assert (d = 0 ∨ d = 1 ∨ d = 2 ∨ d = 3 ∨ d = 4 ∨ d = 5 ∨ d = 6 ∨ d = 7
          ∨ d = 8 ∨ d = 9) as Hcases by lia.
  repeat destruct Hcases as [->|Hcases]; try done. by subst.
Qed.

(** Digits printed in front of a text that starts with no digit are read
    back, and the text is left. *)
Lemma take_digits_printed (ds : list Z) (rest : list ascii) :
  Forall (λ d, 0 ≤ d < 10) ds →
  Str.take_digits Str.dec_digit rest = ([], rest) →
  Str.take_digits Str.dec_digit (map digit_char ds ++ rest) = (ds, rest).
Proof.
  intros Hds Hrest. induction Hds as [|d ds Hd _ IH]; [done|].
  cbn [map app Str.take_digits]. by rewrite (dec_digit_char d Hd), IH.
Qed.

Lemma digits_rev_spec (fuel : nat) (n : Z) :
  0 ≤ n < 10 ^ Z.of_nat (S fuel) →
  le_value (digits_rev (S fuel) n) = n
  ∧ Forall (λ d, 0 ≤ d < 10) (digits_rev (S fuel) n)
  ∧ digits_rev (S fuel) n ≠ [].
Proof.
  revert n. induction fuel as [|f IH]; intros n Hn.
  - change (10 ^ Z.of_nat 1) with 10 in Hn. cbn [digits_rev].
    destruct (n <? 10) eqn:Hlt; [|apply Z.ltb_ge in Hlt; lia].
    cbn. split; [lia|]. split; [|done]. repeat constructor; lia.
  - change (digits_rev (S (S f)) n)
      with (if n <? 10 then [n] else n mod 10 :: digits_rev (S f) (n / 10)).
    destruct (n <? 10) eqn:Hlt.
    + apply Z.ltb_lt in Hlt. cbn. split; [lia|].
      split; [|done]. repeat constructor; lia.
    + apply Z.ltb_ge in Hlt.
      assert (0 ≤ n / 10 < 10 ^ Z.of_nat (S f)) as Hdiv.
      { rewrite (Nat2Z.inj_succ (S f)), Z.pow_succ_r in Hn by lia.
        split; [apply Z.div_pos; lia|].
        apply Z.div_lt_upper_bound; lia. }
      destruct (IH _ Hdiv) as (Hv & Hr & _).
      change (le_value (n mod 10 :: digits_rev (S f) (n / 10)))
        with (n mod 10 + 10 * le_value (digits_rev (S f) (n / 10))).
      rewrite Hv. split; [|split; [|done]].
      * pose proof (Z.div_mod n 10). lia.
      * constructor; [|done]. apply Z.mod_pos_bound. lia.
Qed.

Lemma digits_value_rev (ds : list Z) :
  Str.digits_value 10 (rev ds) = le_value ds.
Proof.
  induction ds as [|d ds IH]; [done|].
  cbn [rev]. unfold Str.digits_value in *. rewrite fold_left_app. cbn [fold_left].
  rewrite IH. unfold le_value. cbn [foldr]. lia.
Qed.

Lemma digits_of_spec (n : Z) :
  0 ≤ n →
  Str.digits_value 10 (digits_of n) = n
  ∧ Forall (λ d, 0 ≤ d < 10) (digits_of n)
  ∧ digits_of n ≠ [].
Proof.
  intros Hn. unfold digits_of.
  assert (0 ≤ n < 10 ^ Z.of_nat (S (Z.to_nat (Z.log2 n)))) as Hb.
  { split; [done|]. rewrite Nat2Z.inj_succ, Z2Nat.id by apply Z.log2_nonneg.
    destruct (Z.eq_dec n 0) as [->|Hz]; [done|].
    apply Z.lt_le_trans with (2 ^ Z.succ (Z.log2 n)).
    - apply Z.log2_spec. lia.
    - apply Z.pow_le_mono_l. lia. }
  destruct (digits_rev_spec _ _ Hb) as (Hv & Hr & Hne).
  rewrite digits_value_rev. split; [done|]. split.
  - apply Forall_forall. intros d Hd%list_elem_of_In%in_rev%list_elem_of_In.
    rewrite Forall_forall in Hr. by apply Hr.
  - intros Hrev. apply Hne. apply (f_equal (@rev Z)) in Hrev.
    by rewrite rev_involutive in Hrev.
Qed.

Lemma chars_digits_string (n : Z) :
  Str.chars (digits_string n) = map digit_char (digits_of n).
Proof. apply list_ascii_of_string_of_list_ascii. Qed.

Lemma cents_split (n : Z) :
  0 ≤ n → (n / 100 * 10 + n / 10 mod 10) * 10 + n mod 10 = n.
Proof.
  intros Hn. change 100 with (10 * 10). rewrite <-(Z.div_div n 10 10) by lia.
  pose proof (Z.div_mod n 10). pose proof (Z.div_mod (n / 10) 10). lia.
Qed.

Lemma hundredths (n : Z) :
  (Qc_of_Z n * pow10 (0 - 2))%Qc = Q2Qc (n # 100).
Proof.
  apply Qc_is_canon. unfold pow10; cbn [Z.leb Z.sub Z.opp Z.add Z.compare].
  change (this (Q2Qc (this (Qc_of_Z n) * this (Q2Qc (1 # 100))))
          == this (Q2Qc (n # 100))).
  cbn [this Q2Qc Qc_of_Z]. rewrite !Qred_correct.
  unfold Qeq, inject_Z; cbn. lia.
Qed.

Lemma hundredths_opp (n : Z) :
  (- (Qc_of_Z n * pow10 (0 - 2)))%Qc = Q2Qc (- n # 100).
Proof.
  rewrite hundredths. apply Qc_is_canon.
  change (this (Q2Qc (- this (Q2Qc (n # 100)))) == this (Q2Qc (- n # 100))).
  cbn [this Q2Qc]. rewrite !Qred_correct. unfold Qeq; cbn. lia.
Qed.

(** What the decimal reader makes of printed cents. *)
Lemma unsigned_decimal_fixed (n : Z) :
  0 ≤ n →
  unsigned_decimal
    (map digit_char (digits_of (n / 100))
     ++ "."%char :: digit_char (n / 10 mod 10)
        :: digit_char (n mod 10) :: [])
  = Some ((Qc_of_Z n * pow10 (0 - 2))%Qc, []).
Proof.
  intros Hn. unfold unsigned_decimal.
  destruct (digits_of_spec (n / 100)) as (Hv & Hr & Hne);
    [apply Z.div_pos; lia|].
  rewrite take_digits_printed by done.
  assert (0 ≤ n / 10 mod 10 < 10) as H1 by (apply Z.mod_pos_bound; lia).
  assert (0 ≤ n mod 10 < 10) as H2 by (apply Z.mod_pos_bound; lia).
  pose proof (take_digits_printed [n / 10 mod 10; n mod 10] []) as Hfp.
  cbn [map app] in Hfp. rewrite Hfp; [|by auto using Forall_cons_2|done].
  destruct (digits_of (n / 100)) as [|d ds] eqn:Hds; [done|].
  cbn [exponent_part List.length]. change (Z.of_nat 2) with 2.
  unfold Str.digits_value in *. rewrite fold_left_app, Hv. cbn [fold_left].
  by rewrite cents_split.
Qed.

(** Cents printed with an optional minus sign are read back as that many
    hundredths. *)
Lemma parseFloat_fixed (minus : bool) (n : Z) :
  0 ≤ n →
  parseFloat_string
    ((if minus then "-" else "") +:+ digits_string (n / 100) +:+ "."
     +:+ String (digit_char (n / 10 mod 10))
           (String (digit_char (n mod 10)) ""))
  = Fin (Q2Qc ((if minus then - n else n) # 100)).
Proof.
  intros Hn. unfold parseFloat_string.
  rewrite !chars_app, chars_digits_string.
  change (Str.chars ".") with ["."%char].
  change (Str.chars (String ?a (String ?b "")))
    with [a; b].
  cbn [app].
  pose proof (unsigned_decimal_fixed n Hn) as Hu.
  destruct (digits_of_spec (n / 100)) as (_ & Hr & Hne);
    [apply Z.div_pos; lia|].
  destruct (digits_of (n / 100)) as [|d ds]; [done|].
  apply Forall_cons_1 in Hr as [Hd _]. cbn [map app] in Hu |- *.
  destruct (digit_char_plain d
              (map digit_char ds ++ ["."%char; digit_char (n / 10 mod 10);
                                     digit_char (n mod 10)]) Hd)
    as [Hsign Hinf].
  destruct minus.
  - change (Str.chars "-") with ["-"%char]. cbn [app Str.trim_start].
    change (Str.is_space "-") with false. cbv iota.
    unfold decimal_literal. cbn [Str.strip_sign].
    rewrite Hinf, Hu. by rewrite hundredths_opp.
  - change (Str.chars "") with (@nil ascii). cbn [app Str.trim_start].
    rewrite (digit_char_not_space d Hd).
    unfold decimal_literal. rewrite Hsign, Hinf, Hu. by rewrite hundredths.
Qed.

Lemma Qc_abs_nonneg (q : Qc) : (0 ≤ Qc_abs q)%Qc.
Proof.
  unfold Qc_abs. destruct (Num.Qc_ltb q (Qc_of_Z 0)) eqn:Hlt.
  - apply Qc_ltb_lt in Hlt. rewrite Qc_of_Z_0 in Hlt.
    apply Qclt_le_weak, Qcopp_le_compat in Hlt.
    assert ((- 0)%Qc = 0%Qc) as E by ring. by rewrite E in Hlt.
  - apply Qcnot_lt_le. intros Hq. rewrite <-Qc_of_Z_0 in Hq.
    apply Qc_ltb_lt in Hq. congruence.
Qed.

Lemma cents_nonneg (q : Qc) :
  0 ≤ Qfloor (Qc_abs q * Qc_of_Z 100 + Q2Qc (1 # 2))%Qc.
Proof.
  change 0 with (Qfloor 0). apply Qfloor_resp_le.
  change (0 ≤ Qc_abs q * Qc_of_Z 100 + Q2Qc (1 # 2))%Qc.
  apply Qcplus_nonneg_nonneg; [|done].
  rewrite <-(Qcmult_0_l (Qc_of_Z 100)).
  apply Qcmult_le_compat_r; [apply Qc_abs_nonneg|done].
Qed.

(** [round2] does round: its result is a whole number of hundredths, at
    most half a hundredth away from the number. *)
Lemma round2_nearest (q : Qc) :
  ∃ z : Z, round2 (Fin q) = Fin (Q2Qc (z # 100))
           ∧ (Qabs (q * 100 - inject_Z z) <= 1 # 2)%Q.
Proof.
  unfold round2.
  set (x := (Qc_abs q * Qc_of_Z 100 + Q2Qc (1 # 2))%Qc).
  assert (this x == Qc_abs q * 100 + (1 # 2))%Q as Hx.
  { unfold x, Qcplus, Qcmult, Q2Qc, Qc_of_Z; cbn [this].
    rewrite !Qred_correct. reflexivity. }
  assert (inject_Z (Qfloor x) <= Qc_abs q * 100 + (1 # 2))%Q as Hlo.
  { rewrite <-Hx. apply Qfloor_le. }
  assert (Qc_abs q * 100 + (1 # 2) < inject_Z (Qfloor x) + 1)%Q as Hhi.
  { rewrite <-Hx. change 1%Q with (inject_Z 1). rewrite <-inject_Z_plus.
    apply Qlt_floor. }
  set (n := Qfloor x) in *. clearbody n. clear Hx x.
  exists (if Num.Qc_ltb q (Qc_of_Z 0) then (- n)%Z else n).
  split; [done|]. apply Qabs_Qle_condition.
  unfold Qc_abs in Hlo, Hhi. destruct (Num.Qc_ltb q (Qc_of_Z 0)).
  - assert (this (- q)%Qc == - this q)%Q as Hneg.
    { unfold Qcopp, Q2Qc; cbn [this]. apply Qred_correct. }
    rewrite Hneg in Hlo, Hhi. rewrite inject_Z_opp.
    set (m := inject_Z n) in *. clearbody m. split; lra.
  - set (m := inject_Z n) in *. clearbody m. split; lra.
Qed.

Section Rounding.
Context `{Host}.

(** Printing with [toFixed(2)] and reading the text back rounds to two
    decimals. *)
Lemma toFixed2_read_back (x : number) :
  fixed_notation x = true → parseFloat_string (toFixed2 x) = round2 x.
Proof.
  destruct x as [| |q|]; try done. cbn [fixed_notation]. intros Hb.
  unfold toFixed2, round2. rewrite Hb.
  by rewrite (parseFloat_fixed (Num.Qc_ltb q (Qc_of_Z 0)) _ (cents_nonneg q)).
Qed.

End Rounding.

(** ** The fulfillment ratio *)

Lemma or_zero_not_NaN (n : number) : Num.or_zero n ≠ NaN.
Proof.
  unfold Num.or_zero. destruct (Num.truthy n) eqn:E; [|done]. by destruct n.
Qed.

Lemma or_zero_NaN : Num.or_zero NaN = Num.zero.
Proof. done. Qed.

(** For a number other than [NaN], [x <= 0] is the failure of [x > 0]. *)
Lemma leb_zero_gtb (x : number) :
  num_leb x Num.zero = true → Num.gtb x Num.zero = false.
Proof.
  unfold num_leb, Num.gtb. destruct x; try done.
  intros Hle. by apply negb_true_iff in Hle.
Qed.

Section Ratio.
Context `{Host}.

Lemma zero_read_back : parseFloat_string (toFixed2 Num.zero) = Num.zero.
Proof. run_eq. Qed.

(** The ratio [enrich] stores, before any case distinction. *)
Lemma enrich_sla (it : object) (e : enriched) :
  enrich it = Ok e →
  sla e
  = parseFloat_string
      (toFixed2
         (if Num.gtb (Num.or_zero (parseFloat (prop it "poValue"))) Num.zero
          then Num.mul
                 (Num.div (Num.or_zero (parseFloat (prop it "receivedValue")))
                    (Num.or_zero (parseFloat (prop it "poValue"))))
                 (Num.of_Z 100)
          else Num.zero)).
Proof.
  unfold enrich.
  destruct (parseDate (prop it "poDate")) as [p|]; [|done].
  destruct (parseDate (prop it "receivedDate")) as [r|]; [|done].
  cbn. by intros [= <-].
Qed.


End Ratio.


(** A record with no order value has the ratio 0. *)
Example ratio_without_order_value :
  sla <$> enrich (H := ExampleHost.utc) [("receivedValue", PStr "80")]
  = Ok Num.zero.
Proof. run_eq. Qed.

(** * The rest of the two files *)

(** ** Trimming *)

Lemma trim_start_nil_iff (cs : list ascii) :
  Str.trim_start cs = [] ↔ Forall (λ c, Str.is_space c = true) cs.
Proof.
  induction cs as [|c r IH]; cbn.
  - split; [constructor|done].
  - destruct (Str.is_space c) eqn:Hc.
    + rewrite IH. split; [by constructor|]. by intros [_ ?]%Forall_cons_1.
    + split; [done|]. intros [Hs _]%Forall_cons_1. congruence.
Qed.

Lemma trim_start_head (cs r : list ascii) (c : ascii) :
  Str.trim_start cs = c :: r → Str.is_space c = false.
Proof.
  induction cs as [|d cs IH]; cbn; [done|].
  destruct (Str.is_space d) eqn:Hd; [done|]. by intros [= <- _].
Qed.

Lemma trim_start_suffix (cs : list ascii) : Str.trim_start cs `suffix_of` cs.
Proof.
  induction cs as [|c r IH]; cbn; [done|].
  destruct (Str.is_space c); [by apply suffix_cons_r|done].
Qed.

(** Trimming leaves nothing exactly when the text is white space only. *)
Lemma trim_nil_iff (cs : list ascii) :
  Str.trim cs = [] ↔ Forall (λ c, Str.is_space c = true) cs.
Proof.
  unfold Str.trim. rewrite <-trim_start_nil_iff. split.
  - intros Hr. apply (f_equal (@rev ascii)) in Hr.
    rewrite rev_involutive in Hr. cbn in Hr.
    apply trim_start_nil_iff in Hr.
    destruct (Str.trim_start cs) as [|c r] eqn:Hts; [done|].
    pose proof (trim_start_head _ _ _ Hts) as Hc.
    rewrite Forall_forall in Hr.
    rewrite (Hr c) in Hc; [done|].
    apply list_elem_of_In, in_rev. rewrite rev_involutive. by left.
  - by intros ->.
Qed.

(** What trimming leaves holds a character that is no white space. *)
Lemma trim_not_blank (cs : list ascii) :
  Str.trim cs ≠ [] → Str.trim (Str.trim cs) ≠ [].
Proof.
  intros Hne Hnil. apply trim_nil_iff in Hnil. apply Hne.
  unfold Str.trim in *.
  destruct (Str.trim_start (rev (Str.trim_start cs))) as [|c r] eqn:Hts;
    [done|].
  pose proof (trim_start_head _ _ _ Hts) as Hc.
  rewrite Forall_forall in Hnil. rewrite (Hnil c) in Hc; [done|].
  apply list_elem_of_In, in_rev. rewrite rev_involutive. by left.
Qed.

Lemma chars_of_list (cs : list ascii) :
  Str.chars (string_of_list_ascii cs) = cs.
Proof. apply list_ascii_of_string_of_list_ascii. Qed.

Lemma string_of_chars (s : string) : string_of_list_ascii (Str.chars s) = s.
Proof. apply string_of_list_ascii_of_string. Qed.

Lemma trim_empty_iff (s : string) :
  Config.trim s = "" ↔ Forall (λ c, Str.is_space c = true) (Str.chars s).
Proof.
  rewrite <-trim_nil_iff. unfold Config.trim. split.
  - intros Hs. apply (f_equal Str.chars) in Hs. by rewrite chars_of_list in Hs.
  - by intros ->.
Qed.

Lemma forallb_Forall {A : Type} (f : A → bool) (l : list A) :
  forallb f l = true ↔ Forall (λ x, f x = true) l.
Proof.
  rewrite forallb_forall, Forall_forall. split; intros Hl x Hx; apply Hl.
  - by apply list_elem_of_In.
  - by apply list_elem_of_In.
Qed.

Lemma trim_blank (s : string) :
  String.eqb (Config.trim s) "" = forallb Str.is_space (Str.chars s).
Proof.
  destruct (forallb Str.is_space (Str.chars s)) eqn:Hb.
  - apply String.eqb_eq, trim_empty_iff. by apply forallb_Forall.
  - apply String.eqb_neq. intros He%trim_empty_iff%forallb_Forall. congruence.
Qed.

(** ** The configuration *)

Lemma getApiUrl_set (url : string) (store : gmap string string) :
  Config.getApiUrl (<[Config.CONFIG_KEY := url]> store) = url.
Proof.
  unfold Config.getApiUrl. rewrite lookup_insert_eq.
  destruct (String.eqb_spec url ""); by subst.
Qed.

Lemma getApiUrl_deleted (store : gmap string string) :
  Config.getApiUrl (delete Config.CONFIG_KEY store) = "".
Proof. unfold Config.getApiUrl. by rewrite lookup_delete_eq. Qed.

Lemma step_coherent (w : Config.world) (c : Config.call) :
  Config.apiUrl (Config.manager (Config.step w c))
  = Config.getApiUrl (Config.localStorage (Config.step w c)).
Proof.
  destruct c as [url|]; cbn.
  - by rewrite getApiUrl_set.
  - by rewrite getApiUrl_deleted.
Qed.

(** X1: whatever calls of [setApiUrl] and [clearApiUrl] a page makes, its
    [apiUrl] field is what [getApiUrl] reads from the storage, so a page
    opened afterwards on the same storage starts with the same
    manager. *)
Theorem config_field_follows_storage
    (store : gmap string string) (calls : list Config.call) :
  Config.apiUrl (Config.manager (Config.run calls (Config.boot store)))
  = Config.getApiUrl
      (Config.localStorage (Config.run calls (Config.boot store)))
  ∧ Config.boot (Config.localStorage (Config.run calls (Config.boot store)))
    = Config.run calls (Config.boot store).
Proof.
  assert (∀ w,
            Config.apiUrl (Config.manager w)
            = Config.getApiUrl (Config.localStorage w) →
            Config.apiUrl (Config.manager (Config.run calls w))
            = Config.getApiUrl (Config.localStorage (Config.run calls w)))
    as Hinv.
  { unfold Config.run. induction calls as [|c r IH]; intros w Hw; [done|].
    cbn. apply IH, step_coherent. }
  specialize (Hinv (Config.boot store) eq_refl). split; [done|].
  destruct (Config.run calls (Config.boot store)) as [ls [url]].
  cbn in Hinv. unfold Config.boot, Config.create. cbn. by rewrite <-Hinv.
Qed.

(** X2: the manager writes one key of the storage: every other key keeps
    its value, or its absence, through every call. *)
Theorem config_touches_one_key
    (w : Config.world) (calls : list Config.call) (k : string) :
  k ≠ Config.CONFIG_KEY →
  Config.localStorage (Config.run calls w) !! k = Config.localStorage w !! k.
Proof.
  intros Hk. unfold Config.run. revert w.
  induction calls as [|c r IH]; intros w; [done|].
  cbn [fold_left]. rewrite IH. destruct c as [url|]; cbn.
  - by rewrite lookup_insert_ne.
  - by rewrite lookup_delete_ne.
Qed.



(** ** More on the filter *)

Lemma filter_res_all {A : Type} (f : A → res bool) (l : list A) :
  (∀ x, x ∈ l → f x = Ok true) → filter_res f l = Ok l.
Proof.
  induction l as [|x r IH]; intros Hall; [done|]. cbn.
  rewrite (Hall x) by by left. cbn. rewrite IH; [done|].
  intros y Hy. apply Hall. by right.
Qed.

Lemma filter_res_sublist {A : Type} (f : A → res bool) (l l' : list A) :
  filter_res f l = Ok l' → l' `sublist_of` l.
Proof.
  revert l'. induction l as [|x r IH]; intros l'; cbn.
  - by intros [= <-].
  - destruct (f x) as [b|]; [|done]. cbn.
    destruct (filter_res f r) as [ys|]; [|done]. cbn. intros [= <-].
    specialize (IH ys eq_refl).
    destruct b; [by apply sublist_skip|by apply sublist_cons].
Qed.

Lemma filter_res_returns {A : Type} (f : A → res bool) (l : list A) :
  (∀ x, x ∈ l → ∃ b, f x = Ok b) → ∃ l', filter_res f l = Ok l'.
Proof.
  induction l as [|x r IH]; intros Hall; [by eexists|]. cbn.
  destruct (Hall x) as [b ->]; [by left|]. cbn.
  destruct IH as [ys ->]; [|by eexists].
  intros y Hy. apply Hall. by right.
Qed.

Lemma filter_res_throws {A : Type} (f : A → res bool) (l : list A)
    (x : A) (e : exn) :
  x ∈ l → f x = Throw e → ∃ e', filter_res f l = Throw e'.
Proof.
  induction l as [|y r IH]; intros Hx Hf; [by apply elem_of_nil in Hx|].
  cbn. apply elem_of_cons in Hx as [->|Hx].
  - rewrite Hf. by eexists.
  - destruct (f y) as [b|]; [|by eexists]. cbn.
    destruct (IH Hx Hf) as [e' ->]. by eexists.
Qed.

Lemma toLowerCase_empty (s : string) :
  String.eqb (Str.toLowerCase s) "" = String.eqb s "".
Proof. by destruct s. Qed.

Section MoreFilter.
Context `{Host}.


(** X6: when the filter returns, the view it leaves is the data with
    some records left out, none added or moved; the data, the sort column
    and the direction are as before. *)
Theorem applyFilters_selects (f : filters) (st st' : state) :
  applyFilters f st = Ok st' →
  filteredData st' `sublist_of` data st
  ∧ data st' = data st
  ∧ sortColumn st' = sortColumn st
  ∧ sortDirection st' = sortDirection st.
Proof.
  unfold applyFilters.
  destruct (filter_res _ (data st)) as [view|] eqn:Hf; [|done].
  cbn. intros [= <-]. cbn. split; [|done]. by eapply filter_res_sublist.
Qed.

(** X7: a filter run after a sort gives the view the filter gives without
    the sort: the order of the sort is lost, while the sort column
    stays. *)
Theorem applyFilters_forgets_sort (f : filters) (column : string)
    (st : state) :
  filteredData <$> applyFilters f (sortTable column st)
  = filteredData <$> applyFilters f st
  ∧ sortColumn <$> applyFilters f (sortTable column st)
    = (λ _, Some column) <$> applyFilters f st.
Proof.
  unfold applyFilters, sortTable; cbn.
  by destruct (filter_res _ (data st)).
Qed.

Lemma misses_text_returns (needle s : string) :
  ∃ b, misses needle (VPrim (PStr s)) = Ok b.
Proof. unfold misses. destruct (String.eqb needle ""); by eexists. Qed.


(** X9: with a supplier needle set, one record that is not rejected by a
    date bound and holds no text as its supplier name makes the whole
    filter throw: no view is produced. *)
Theorem applyFilters_throws_without_text (f : filters) (st : state)
    (a : enriched) :
  a ∈ data st →
  before_bound (poDateFrom f) (poDateObj a) = false →
  after_bound (poDateTo f) (poDateObj a) = false →
  before_bound (rcvDateFrom f) (receivedDateObj a) = false →
  after_bound (rcvDateTo f) (receivedDateObj a) = false →
  supplierSearch f ≠ "" →
  (∀ s, prop (item a) "supplierName" ≠ PStr s) →
  ∃ e, applyFilters f st = Throw e.
Proof.
  intros Ha Hb1 Hb2 Hb3 Hb4 Hneedle Htext. unfold applyFilters.
  assert (∃ e, keeps (lower_needles f) a = Throw e) as [e He].
  { unfold keeps; cbn. rewrite Hb1, Hb2, Hb3, Hb4.
    unfold misses. rewrite (toLowerCase_empty (supplierSearch f)).
    apply String.eqb_neq in Hneedle. rewrite Hneedle.
    unfold get; cbn.
    destruct (prop (item a) "supplierName") as [| |b|n|s];
      try (by eexists). by destruct (Htext s). }
  destruct (filter_res_throws _ _ _ _ Ha He) as [e' ->]. by eexists.
Qed.

Lemma keeps_splits (f : filters) (a : enriched) :
  keeps (lower_needles f) a = Ok true
  ↔ keeps (lower_needles (only_dates f)) a = Ok true
    ∧ keeps (lower_needles (only_needles f)) a = Ok true.
Proof.
  unfold keeps; cbn.
  rewrite ?before_bound_empty, ?after_bound_empty.
  destruct (before_bound _ _); [by split; [|intros [? ?]]|].
  destruct (after_bound _ _); [by split; [|intros [? ?]]|].
  destruct (before_bound _ _); [by split; [|intros [? ?]]|].
  destruct (after_bound _ _); [by split; [|intros [? ?]]|].
  split; [by split|by intros [_ ?]].
Qed.

(** X10: the constraints combine by intersection: when the filter
    returns on the date bounds alone, on the needles alone and on both,
    the view for both holds the records that are in the two other
    views. *)
Theorem filter_constraints_intersect (f : filters) (st s sd sn : state)
    (a : enriched) :
  applyFilters f st = Ok s →
  applyFilters (only_dates f) st = Ok sd →
  applyFilters (only_needles f) st = Ok sn →
  a ∈ filteredData s ↔ a ∈ filteredData sd ∧ a ∈ filteredData sn.
Proof.
  intros Hs Hsd Hsn.
  rewrite (applyFilters_elem_of _ _ _ _ Hs),
    (applyFilters_elem_of _ _ _ _ Hsd), (applyFilters_elem_of _ _ _ _ Hsn).
  rewrite keeps_splits. tauto.
Qed.

End MoreFilter.

(** ** More on the sort and the summary *)

Lemma StronglySorted_impl {A : Type} (R R' : A → A → Prop) (l : list A) :
  (∀ x y, R x y → R' x y) → StronglySorted R l → StronglySorted R' l.
Proof.
  intros Himp Hs. induction Hs as [|x r Hs IH Hx]; constructor; [done|].
  eapply Forall_impl; [done|]. intros y. apply Himp.
Qed.

(** Of numbers other than [NaN], "not above" is transitive. *)
Lemma ltb_false_trans (x y z : number) :
  x ≠ NaN → y ≠ NaN → z ≠ NaN →
  Num.ltb y x = false → Num.ltb z y = false → Num.ltb z x = false.
Proof.
  intros Hx Hy Hz Hyx Hzy. destruct (Num.ltb z x) eqn:Hzx; [|done].
  destruct (Num.ltb x y) eqn:Hxy.
  - by rewrite (ltb_trans z x y) in Hzy.
  - rewrite (ltb_neither x y Hx Hy Hxy Hyx) in Hzx. congruence.
Qed.

Lemma numeric_not_date (column : string) :
  numeric_column column = true → date_column column = false.
Proof.
  unfold numeric_column, date_column. intros Hnum.
  repeat match type of Hnum with
         | (_ || _ = true) => apply orb_true_iff in Hnum as [Hnum|Hnum]
         end; apply String.eqb_eq in Hnum; by subst.
Qed.

Lemma key_lt_numeric (column : string) (a b : enriched) :
  numeric_column column = true →
  key_lt column a b
  = Num.ltb (numeric_key column a) (numeric_key column b).
Proof.
  intros Hnum. unfold key_lt, sort_key.
  by rewrite Hnum, (numeric_not_date _ Hnum).
Qed.

Lemma numeric_key_not_NaN (column : string) (a : enriched) :
  numeric_key column a ≠ NaN.
Proof. apply or_zero_not_NaN. Qed.

Lemma num_leb_not_ltb (x y : number) :
  x ≠ NaN → y ≠ NaN → num_leb x y = negb (Num.ltb y x).
Proof. by destruct x, y. Qed.

(** X11: sorting rearranges the view and nothing else: the view after
    [sortTable] is a permutation of the view before, the data are
    untouched. *)
Theorem sortTable_permutes (column : string) (st : state) :
  filteredData (sortTable column st) ≡ₚ filteredData st
  ∧ data (sortTable column st) = data st.
Proof. split; [apply Array_sort_perm|done]. Qed.

(** X12: on a numeric column the sort always succeeds in ordering the
    view, whatever the records hold: each record's number, with 0 for a
    property that is absent or holds no number, is at most (ascending) or
    at least (descending) the number of every record after it. *)
Theorem sortTable_orders_numbers (column : string) (st : state) :
  numeric_column column = true →
  StronglySorted
    (λ a b, match sortDirection (sortTable column st) with
            | asc => num_leb (numeric_key column a) (numeric_key column b)
            | desc => num_leb (numeric_key column b) (numeric_key column a)
            end = true)
    (filteredData (sortTable column st)).
Proof.
  intros Hnum. unfold sortTable; cbn.
  set (dir := if bool_decide (sortColumn st = Some column)
              then flip (sortDirection st) else asc).
  assert (∀ a b, compareFn column dir a b ≤ 0
                 ↔ match dir with
                   | asc => num_leb (numeric_key column a)
                              (numeric_key column b)
                   | desc => num_leb (numeric_key column b)
                               (numeric_key column a)
                   end = true) as Hle.
  { intros a b. rewrite compareFn_le.
    destruct dir; rewrite key_lt_numeric by done;
      rewrite num_leb_not_ltb by apply numeric_key_not_NaN;
      by rewrite negb_true_iff. }
  apply (StronglySorted_impl (λ a b, compareFn column dir a b ≤ 0)).
  { intros a b. apply Hle. }
  apply Array_sort_sorted.
  - intros a b _ _. apply compareFn_pos_le.
  - intros a b c _ _ _. rewrite !compareFn_le.
    destruct dir; rewrite !key_lt_numeric by done; intros Hab Hbc.
    + by apply (ltb_false_trans _ (numeric_key column b));
        try apply numeric_key_not_NaN.
    + by apply (ltb_false_trans _ (numeric_key column b));
        try apply numeric_key_not_NaN.
Qed.

Lemma add_comm (a b : number) : Num.add a b = Num.add b a.
Proof. destruct a, b; cbn; try done. f_equal. ring. Qed.

Lemma sum_permutation (l l' : list number) :
  l ≡ₚ l' → foldr Num.add Num.zero l = foldr Num.add Num.zero l'.
Proof.
  induction 1 as [|x l l' _ IH|x y l|l l' l'' _ IH1 _ IH2]; cbn.
  - done.
  - by rewrite IH.
  - by rewrite !add_assoc, (add_comm y x).
  - by rewrite IH1.
Qed.

Lemma mean_permutation (l l' : list number) : l ≡ₚ l' → mean l = mean l'.
Proof.
  intros Hp. unfold mean.
  rewrite (sum_permutation _ _ Hp), (Permutation_length Hp).
  destruct l as [|x r], l' as [|y r']; try done.
  - by apply Permutation_nil_cons in Hp.
  - symmetry in Hp. by apply Permutation_nil_cons in Hp.
Qed.

(** The summary depends on the records of the view, not on their order. *)
Lemma updateStatistics_permutation (view view' : list enriched) :
  view ≡ₚ view' → updateStatistics view = updateStatistics view'.
Proof.
  intros Hp. unfold updateStatistics.
  rewrite !average_is_mean, !Set_size_is_cardinal.
  rewrite (mean_permutation (map sla view) (map sla view'))
    by by apply Permutation_map.
  rewrite (mean_permutation (map avgDays view) (map avgDays view'))
    by by apply Permutation_map.
  rewrite (Permutation_length Hp). f_equal. f_equal.
  apply set_eq. intros v. rewrite !elem_of_list_to_set.
  by rewrite (Permutation_map _ Hp).
Qed.


(** X14: the number of distinct order numbers is at most the number of
    records, and is 0 only for the empty view. *)
Theorem totalPO_bounds (view : list enriched) :
  (totalPO (updateStatistics view) ≤ totalItems (updateStatistics view))%nat
  ∧ (totalPO (updateStatistics view) = 0%nat
     ↔ totalItems (updateStatistics view) = 0%nat).
Proof.
  unfold updateStatistics; cbn [totalPO totalItems].
  set (values := map (λ a, prop (item a) "nomorPO") view).
  destruct (Set_of_spec values [] (NoDup_nil_2)) as [Hnd Hin].
  fold (Set_of values) in Hnd, Hin.
  assert (List.length values = List.length view) as Hlen
    by apply length_map.
  split.
  - rewrite <-Hlen. apply submseteq_length, NoDup_submseteq; [done|].
    intros v Hv. apply Hin in Hv as [Hv|Hv]; [by apply elem_of_nil in Hv|done].
  - rewrite <-Hlen. split.
    + intros Hz. destruct values as [|v r]; [done|].
      assert (v ∈ Set_of (v :: r)) as Hv by (apply Hin; right; by left).
      destruct (Set_of (v :: r)); [by apply elem_of_nil in Hv|done].
    + intros Hz. by destruct values.
Qed.

(** ** Ties in the sort *)

Section Stability.
Context {A : Type} (cmp : A → A → Z) (P : A → Prop) `{!∀ x, Decision (P x)}.

Lemma insert_by_filter (x : A) (l : list A) :
  (∀ y, y ∈ l → P x → P y → cmp x y ≤ 0) →
  filter P (insert_by cmp x l) = filter P (x :: l).
Proof.
  induction l as [|y r IH]; intros Htie; [done|]. cbn [insert_by].
  destruct (0 <? cmp x y) eqn:Hmove; [|done].
  apply Z.ltb_lt in Hmove.
  rewrite (filter_cons _ y), IH
    by (intros z Hz; apply Htie; by right).
  rewrite !(filter_cons _ x), (filter_cons _ y).
  destruct (decide (P x)) as [Hx|Hx], (decide (P y)) as [Hy|Hy]; try done.
  assert (y ∈ y :: r) as Hin by by left.
  specialize (Htie y Hin Hx Hy). lia.
Qed.

(** A stable sort: elements that do not compare above one another keep
    their order. *)
Lemma Array_sort_filter (l : list A) :
  (∀ x y, P x → P y → cmp x y ≤ 0) →
  filter P (Array_sort cmp l) = filter P l.
Proof.
  intros Htie. induction l as [|x r IH]; [done|]. cbn [Array_sort].
  rewrite insert_by_filter by (intros y _; apply Htie).
  by rewrite !(filter_cons _ x), IH.
Qed.

End Stability.


(** ** More on [processData] *)

Section MoreProcess.
Context `{Host}.

Lemma enrich_item (it : object) (e : enriched) :
  enrich it = Ok e → item e = it.
Proof.
  unfold enrich.
  destruct (parseDate (prop it "poDate")) as [p|]; [|done].
  destruct (parseDate (prop it "receivedDate")) as [r|]; [|done].
  cbn. by intros [= <-].
Qed.

Lemma parseDate_returns_iff (v : prim) :
  (∃ r, parseDate v = Ok r) ↔ date_text v = true.
Proof.
  unfold parseDate, date_text.
  destruct (ToBoolean v) eqn:Ht; cbn [negb orb].
  - destruct v as [| |b|n|s];
      try (split; [by intros [? ?]|done]).
    split; [done|]. intros _.
    generalize (parseDate_string_returns s). unfold parseDate.
    by rewrite Ht.
  - split; [done|]. by eexists.
Qed.

Lemma enrich_returns_iff (it : object) :
  (∃ e, enrich it = Ok e)
  ↔ date_text (prop it "poDate") && date_text (prop it "receivedDate")
    = true.
Proof.
  rewrite andb_true_iff, <-!parseDate_returns_iff. unfold enrich. split.
  - intros [e He].
    destruct (parseDate (prop it "poDate")) as [p|]; [|done].
    destruct (parseDate (prop it "receivedDate")) as [r|]; [|done].
    split; by eexists.
  - intros [[p ->] [r ->]]. by eexists.
Qed.

Lemma map_res_returns_iff {A B : Type} (f : A → res B) (l : list A) :
  (∃ l', map_res f l = Ok l') ↔ Forall (λ x, ∃ y, f x = Ok y) l.
Proof.
  induction l as [|x r IH]; cbn.
  - split; [by constructor|by eexists].
  - rewrite Forall_cons, <-IH. split.
    + intros [l' Hl].
      destruct (f x) as [y|]; [|done].
      destruct (map_res f r) as [ys|]; [|done].
      split; by eexists.
    + intros [[y ->] [ys ->]]. by eexists.
Qed.

Lemma map_res_Forall2 {A B : Type} (f : A → res B) (l : list A)
    (l' : list B) :
  map_res f l = Ok l' → Forall2 (λ x y, f x = Ok y) l l'.
Proof.
  revert l'. induction l as [|x r IH]; intros l'; cbn.
  - intros [= <-]. constructor.
  - destruct (f x) as [y|] eqn:Hy; [|done].
    destruct (map_res f r) as [ys|]; [|done].
    cbn. intros [= <-]. constructor; [done|by apply IH].
Qed.

Lemma enriched_of_items (items : list object) (records : list enriched) :
  Forall2 (λ it a, enrich it = Ok a) items records →
  items = map item records
  ∧ Forall (λ a, enrich (item a) = Ok a) records.
Proof.
  induction 1 as [|it a items records Ha _ [IH1 IH2]]; [done|].
  cbn. rewrite (enrich_item it a Ha), <-IH1. split; [done|].
  constructor; [|done]. by rewrite (enrich_item it a Ha).
Qed.


(** X17: [processData] neither drops, adds, reorders nor alters a record:
    the raw records are read off the enriched ones in order, each
    enriched record is the enrichment of its own raw record, and every
    property other than the four derived ones reads as in the raw
    record. *)
Theorem processData_keeps_records (p : payload) (records : list enriched) :
  processData p = Ok records →
  p = PArray (map item records)
  ∧ Forall (λ a, enrich (item a) = Ok a
                 ∧ ∀ k, derived_name k = false
                        → get a k = VPrim (prop (item a) k)) records.
Proof.
  destruct p as [v|items|o]; try done. cbn [processData].
  intros [-> Hrec]%map_res_Forall2%enriched_of_items. split; [done|].
  eapply Forall_impl; [done|]. intros a Ha. split; [done|].
  intros k Hk. unfold derived_name in Hk.
  apply orb_false_iff in Hk as [Hk Hk4].
  apply orb_false_iff in Hk as [Hk Hk3].
  apply orb_false_iff in Hk as [Hk1 Hk2].
  unfold get. by rewrite Hk1, Hk2, Hk3, Hk4.
Qed.

End MoreProcess.

(** ** The two metrics *)

Lemma Qc_of_Z_this (z : Z) : (this (Qc_of_Z z) == inject_Z z)%Q.
Proof. reflexivity. Qed.

Lemma Qc_div_this (x y : Qc) : (this (x / y)%Qc == this x / this y)%Q.
Proof.
  unfold Qcdiv, Qcmult, Qcinv, Q2Qc; cbn [this].
  by rewrite !Qred_correct.
Qed.

Lemma Qc_mult_this (x y : Qc) : (this (x * y)%Qc == this x * this y)%Q.
Proof. unfold Qcmult, Q2Qc; cbn [this]. by rewrite Qred_correct. Qed.

(** The ceiling of a quotient of integers, in integers. *)
Lemma ceiling_of_quotient (d D : Z) :
  0 < D →
  let n := Qceiling (Qc_of_Z d / Qc_of_Z D)%Qc in
  (n - 1) * D < d ≤ n * D.
Proof.
  intros HD n.
  set (q := this (Qc_of_Z d / Qc_of_Z D)%Qc).
  assert (q * inject_Z D == inject_Z d)%Q as Hq.
  { unfold q. rewrite Qc_div_this, !Qc_of_Z_this. field.
    intros H0. unfold Qeq in H0. cbn in H0. lia. }
  assert (0 < inject_Z D)%Q as HDq.
  { change 0%Q with (inject_Z 0). by rewrite <-Zlt_Qlt. }
  pose proof (Qle_ceiling q) as Hle.
  pose proof (Qceiling_lt q) as Hlt.
  fold q in n. fold n in Hle, Hlt. split.
  - rewrite Zlt_Qlt, inject_Z_mult, <-Hq.
    by apply Qmult_lt_compat_r.
  - rewrite Zle_Qle, inject_Z_mult, <-Hq.
    apply Qmult_le_compat_r; [done|]. by apply Qlt_le_weak.
Qed.

Section Metrics.
Context `{Host}.

(** X18: for a record whose two dates are valid, the elapsed days are a
    whole number [n] of days, the number of days started between the
    order and the receipt: [n - 1] days < receipt - order <= [n] days.
    So a receipt later by one millisecond counts as one day, and a
    receipt earlier by less than a day counts as none. *)
Theorem avgDays_counts_started_days (it : object) (e : enriched)
    (tp tr : Z) :
  enrich it = Ok e →
  poDateObj e = Some (mkDate (Some tp)) →
  receivedDateObj e = Some (mkDate (Some tr)) →
  ∃ n : Z, avgDays e = Num.of_Z n
           ∧ (n - 1) * msPerDay < tr - tp ≤ n * msPerDay.
Proof.
  intros He Hp Hr. rewrite (enrich_avgDays_valid it e tp tr He Hp Hr).
  exists (Qceiling (Qc_of_Z (tr - tp) / Qc_of_Z msPerDay)%Qc). split.
  - unfold Num.of_Z at 1 2, Num.div.
    rewrite bool_decide_eq_false_2; [done|]. by intros E; inversion E.
  - by apply ceiling_of_quotient.
Qed.

(** X19: a record whose coerced order value is a finite number above 0
    and whose coerced received value lies between 0 and the order value
    has a ratio between 0 and 100, and of exactly 100 when the two values
    are equal. *)
Theorem sla_of_partial_delivery (it : object) (e : enriched) (p r : Qc) :
  enrich it = Ok e →
  Num.or_zero (parseFloat (prop it "poValue")) = Fin p →
  Num.or_zero (parseFloat (prop it "receivedValue")) = Fin r →
  (0 < p)%Qc → (0 ≤ r)%Qc → (r ≤ p)%Qc →
  ∃ s : Qc, sla e = Fin s ∧ (0 ≤ s)%Qc ∧ (s ≤ Qc_of_Z 100)%Qc
            ∧ (r = p → s = Qc_of_Z 100).
Proof.
  intros He Hpo Hrc Hp Hr0 Hrp. rewrite (enrich_sla it e He), Hpo, Hrc.
  assert (Num.gtb (Fin p) Num.zero = true) as ->.
  { unfold Num.gtb, Num.zero, Num.of_Z; cbn [Num.ltb].
    apply Qc_ltb_lt. by rewrite Qc_of_Z_0. }
  assert (p ≠ Qc_of_Z 0) as Hp0.
  { rewrite Qc_of_Z_0. intros ->. by apply Qlt_irrefl in Hp. }
  unfold Num.div. rewrite bool_decide_eq_false_2 by done.
  unfold Num.of_Z; cbn [Num.mul].
  set (q := (r / p * Qc_of_Z 100)%Qc).
  assert (this q == this r / this p * 100)%Q as Hq.
  { unfold q. by rewrite Qc_mult_this, Qc_div_this. }
  assert (0 < this p)%Q as Hp' by done.
  assert (0 <= this r)%Q as Hr0' by done.
  assert (this r <= this p)%Q as Hrp' by done.
  assert (0 <= this r / this p)%Q as Hlo.
  { apply Qle_shift_div_l; [done|]. by rewrite Qmult_0_l. }
  assert (this r / this p <= 1)%Q as Hhi.
  { apply Qle_shift_div_r; [done|]. by rewrite Qmult_1_l. }
  assert (0 <= this q)%Q as Hq0.
  { rewrite Hq. set (x := (this r / this p)%Q) in *. clearbody x. lra. }
  assert (this q <= 100)%Q as Hq100.
  { rewrite Hq. set (x := (this r / this p)%Q) in *. clearbody x. lra. }
  assert (Num.Qc_ltb q (Qc_of_Z 0) = false) as Hpos.
  { destruct (Num.Qc_ltb q (Qc_of_Z 0)) eqn:E; [|done].
    apply Qc_ltb_lt in E. rewrite Qc_of_Z_0 in E.
    by apply Qlt_not_le in E. }
  assert (Qc_abs q = q) as Habs by (unfold Qc_abs; by rewrite Hpos).
  rewrite toFixed2_read_back.
  2:{ cbn [fixed_notation]. rewrite Habs. apply Qc_ltb_lt.
      apply Qle_lt_trans with (100%Q); [done|]. by vm_compute. }
  unfold round2. rewrite Hpos, Habs.
  set (x := (q * Qc_of_Z 100 + Q2Qc (1 # 2))%Qc).
  assert (this x == this q * 100 + (1 # 2))%Q as Hx.
  { unfold x, Qcplus, Qcmult, Q2Qc, Qc_of_Z; cbn [this].
    rewrite !Qred_correct. reflexivity. }
  assert (0 ≤ Qfloor x) as Hn0.
  { change 0 with (Qfloor 0). apply Qfloor_resp_le. rewrite Hx.
    set (y := this q) in *. clearbody y. lra. }
  assert (Qfloor x ≤ 10000) as Hn1.
  { change 10000 with (Qfloor (10000 + (1 # 2))).
    apply Qfloor_resp_le. rewrite Hx.
    set (y := this q) in *. clearbody y. lra. }
  set (n := Qfloor x) in *.
  eexists. split; [done|]. split; [|split].
  - clearbody n. change (0 <= Qred (n # 100))%Q. rewrite Qred_correct.
    unfold Qle; cbn [Qnum Qden]. lia.
  - clearbody n. change (Qred (n # 100) <= inject_Z 100)%Q.
    rewrite Qred_correct. unfold Qle, inject_Z; cbn [Qnum Qden]. lia.
  - intros ->. unfold n. assert (q = Qc_of_Z 100) as Hq'.
    { apply Qc_is_canon. rewrite Hq. change (this (Qc_of_Z 100)) with 100%Q.
      field. intros E. rewrite E in Hp'. by apply Qlt_irrefl in Hp'. }
    unfold x. rewrite Hq'. run_eq.
Qed.

End Metrics.

(** ** The class of a ratio: [getSLAClass] *)

Lemma num_leb_trans (a b c : number) :
  num_leb a b = true → num_leb b c = true → num_leb a c = true.
Proof.
  intros Hab Hbc.
  assert (a ≠ NaN ∧ b ≠ NaN ∧ c ≠ NaN) as (Ha & Hb & Hc).
  { by destruct a, b, c. }
  rewrite num_leb_not_ltb in Hab, Hbc |- * by done.
  apply negb_true_iff in Hab, Hbc. apply negb_true_iff.
  by apply (ltb_false_trans a b c).
Qed.

(** X20: the class never gets poorer as the ratio grows: of two ratios,
    the larger one has a class at least as good. *)
Theorem getSLAClass_monotone (x y : number) :
  num_leb x y = true →
  (class_rank (getSLAClass x) ≤ class_rank (getSLAClass y))%nat.
Proof.
  intros Hxy.
  assert (∀ c, num_geb x c = true → num_geb y c = true) as Hup.
  { intros c Hc. unfold num_geb in *. by apply (num_leb_trans c x y). }
  unfold getSLAClass.
  destruct (num_geb x (Num.of_Z 80)) eqn:H80.
  { by rewrite (Hup _ H80). }
  destruct (num_geb x (Num.of_Z 60)) eqn:H60.
  { rewrite (Hup _ H60). destruct (num_geb y (Num.of_Z 80)); cbn; lia. }
  destruct (num_geb x (Num.of_Z 40)) eqn:H40.
  { rewrite (Hup _ H40).
    destruct (num_geb y (Num.of_Z 80)), (num_geb y (Num.of_Z 60)); cbn; lia. }
  destruct (num_geb y (Num.of_Z 80)), (num_geb y (Num.of_Z 60)),
    (num_geb y (Num.of_Z 40)); cbn; lia.
Qed.

(** ** Text in the page: [escapeHtml] *)

Lemma escape_char_cases (c : ascii) :
  (c = "&"%char ∧ escape_char c = "&amp;")
  ∨ (c = "<"%char ∧ escape_char c = "&lt;")
  ∨ (c = ">"%char ∧ escape_char c = "&gt;")
  ∨ (c = ascii_of_N 160 ∧ escape_char c = "&nbsp;")
  ∨ (Ascii.eqb c "&" = false ∧ c ≠ "<"%char ∧ c ≠ ">"%char
     ∧ escape_char c = String c EmptyString).
Proof.
  unfold escape_char.
  destruct (Ascii.eqb c "&") eqn:Hamp.
  { apply Ascii.eqb_eq in Hamp. by left. }
  destruct (Ascii.eqb c "<") eqn:Hlt.
  { apply Ascii.eqb_eq in Hlt. right; by left. }
  destruct (Ascii.eqb c ">") eqn:Hgt.
  { apply Ascii.eqb_eq in Hgt. right; right; by left. }
  destruct (Str.code c =? 160) eqn:Hsp.
  { apply Z.eqb_eq in Hsp. right; right; right; left. split; [|done].
    unfold Str.code in Hsp. rewrite <-(ascii_N_embedding c). f_equal. lia. }
  apply Ascii.eqb_neq in Hlt, Hgt. by repeat right.
Qed.

Lemma unescape_escape (s : string) : unescape_text (escape_text s) = s.
Proof.
  induction s as [|c r IH]; [done|]. cbn [escape_text].
  destruct (escape_char_cases c)
    as [[-> ->]|[[-> ->]|[[-> ->]|[[-> ->]|(Hamp & _ & _ & ->)]]]];
    cbv beta iota delta [String.append]; cbn [unescape_text].
  - cbn. by rewrite IH.
  - cbn. by rewrite IH.
  - cbn. by rewrite IH.
  - cbn. by rewrite IH.
  - by rewrite Hamp, IH.
Qed.

Lemma escape_text_no_tag (s : string) :
  Forall (λ c, c ≠ "<"%char ∧ c ≠ ">"%char) (Str.chars (escape_text s)).
Proof.
  induction s as [|c r IH]; [constructor|]. cbn [escape_text].
  rewrite chars_app. apply Forall_app. split; [|done].
  destruct (escape_char_cases c)
    as [[_ ->]|[[_ ->]|[[_ ->]|[[_ ->]|(_ & Hlt & Hgt & ->)]]]];
    repeat constructor; done.
Qed.

Section MorePage.
Context `{Host}.

(** X21: whatever value is given, the text [escapeHtml] returns holds
    neither of the two angle brackets, so it opens no tag when the row
    template is assigned to [innerHTML]. *)
Theorem escapeHtml_opens_no_tag (text : prim) :
  Forall (λ c, c ≠ "<"%char ∧ c ≠ ">"%char) (Str.chars (escapeHtml text)).
Proof. apply escape_text_no_tag. Qed.

(** X22: escaping loses nothing: two different strings are never given
    the same text by [escapeHtml]. *)
Theorem escapeHtml_injective (s t : string) :
  s ≠ t → escapeHtml (PStr s) ≠ escapeHtml (PStr t).
Proof.
  unfold escapeHtml; cbn [ToString]. intros Hne Heq. apply Hne.
  by rewrite <-(unescape_escape s), <-(unescape_escape t), Heq.
Qed.

End MorePage.

(** ** A load, end to end *)

Section MoreLoad.
Context `{Host}.


End MoreLoad.

(** ** The properties of this part on examples *)

(** X2 on a storage that holds the key of another script. *)
Lemma theme_key_is_kept :
  "theme" ≠ Config.CONFIG_KEY
  ∧ Config.localStorage (Config.run Demo.calls (Config.boot Demo.store))
    !! "theme"
    = Config.localStorage (Config.boot Demo.store) !! "theme".
Proof. split; [done|]. by apply config_touches_one_key. Defined.

(** X6 on the two suppliers, filtered by the needle [Acme]. *)
Lemma acme_view_is_selected :
  applyFilters (H := ExampleHost.utc) Demo.acme Demo.stock
  = Ok (Demo.showing [Sample.po1_enriched])
  ∧ filteredData (Demo.showing [Sample.po1_enriched])
    `sublist_of` data Demo.stock
  ∧ data (Demo.showing [Sample.po1_enriched]) = data Demo.stock
  ∧ sortColumn (Demo.showing [Sample.po1_enriched]) = sortColumn Demo.stock
  ∧ sortDirection (Demo.showing [Sample.po1_enriched])
    = sortDirection Demo.stock.
Proof.
  split; [run_eq|].
  apply (applyFilters_selects (H := ExampleHost.utc) Demo.acme Demo.stock).
  run_eq.
Defined.


(** X9 on a view that holds a record without a supplier name. *)
Lemma needle_on_undated_throws :
  ∃ e, applyFilters (H := ExampleHost.utc) Demo.acme Sample.recent = Throw e.
Proof.
  apply (applyFilters_throws_without_text (H := ExampleHost.utc)
           Demo.acme Sample.recent Sample.undated);
    try reflexivity; try done.
  right; left.
Defined.

(** X10 on the two suppliers: the order of [Acme] is in the view of
    [Acme] in 2024 and in the two views of the parts. *)
Lemma acme_in_2024_intersects :
  Sample.po1_enriched ∈ filteredData (Demo.showing [Sample.po1_enriched])
  ↔ Sample.po1_enriched ∈ filteredData Demo.stock
    ∧ Sample.po1_enriched
      ∈ filteredData (Demo.showing [Sample.po1_enriched]).
Proof.
  apply (filter_constraints_intersect (H := ExampleHost.utc)
           Demo.acme_in_2024 Demo.stock); run_eq.
Defined.

(** X12 on the three orders, sorted by ratio. *)
Lemma three_orders_by_ratio :
  numeric_column "sla" = true
  ∧ StronglySorted
      (λ a b, match sortDirection (sortTable "sla" Sample.loaded) with
              | asc => num_leb (numeric_key "sla" a) (numeric_key "sla" b)
              | desc => num_leb (numeric_key "sla" b) (numeric_key "sla" a)
              end = true)
      (filteredData (sortTable "sla" Sample.loaded)).
Proof.
  split; [reflexivity|].
  apply (sortTable_orders_numbers "sla" Sample.loaded). reflexivity.
Defined.

(** X17 on the three orders. *)
Lemma three_orders_are_kept :
  processData (H := ExampleHost.utc) Sample.three_orders
  = Ok (data Sample.loaded)
  ∧ Sample.three_orders = PArray (map item (data Sample.loaded))
  ∧ Forall (λ a, enrich (H := ExampleHost.utc) (item a) = Ok a
                 ∧ ∀ k, derived_name k = false
                        → get a k = VPrim (prop (item a) k))
      (data Sample.loaded).
Proof.
  split; [run_eq|].
  apply (processData_keeps_records (H := ExampleHost.utc)). run_eq.
Defined.

(** X18 on the order of the scenario, received four days after the
    order. *)
Lemma po1_days :
  enrich (H := ExampleHost.utc) Sample.po1 = Ok Sample.po1_enriched
  ∧ ∃ n : Z, avgDays Sample.po1_enriched = Num.of_Z n
             ∧ (n - 1) * msPerDay < 1704412800000 - 1704067200000
                                   ≤ n * msPerDay.
Proof.
  split; [run_eq|].
  apply (avgDays_counts_started_days (H := ExampleHost.utc) Sample.po1);
    [run_eq|reflexivity|reflexivity].
Defined.

(** X19 on the order of the scenario: 80 received of 100 ordered. *)
Lemma po1_within_bounds :
  enrich (H := ExampleHost.utc) Sample.po1 = Ok Sample.po1_enriched
  ∧ ∃ s : Qc, sla Sample.po1_enriched = Fin s ∧ (0 ≤ s)%Qc
              ∧ (s ≤ Qc_of_Z 100)%Qc
              ∧ (Qc_of_Z 80 = Qc_of_Z 100 → s = Qc_of_Z 100).
Proof.
  split; [run_eq|].
  apply (sla_of_partial_delivery (H := ExampleHost.utc) Sample.po1
           Sample.po1_enriched (Qc_of_Z 100) (Qc_of_Z 80));
    try run_eq; try reflexivity; by vm_compute.
Defined.

(** X20 on the ratios 50 and 80. *)
Lemma class_of_50_and_80 :
  num_leb (Num.of_Z 50) (Num.of_Z 80) = true
  ∧ (class_rank (getSLAClass (Num.of_Z 50))
     ≤ class_rank (getSLAClass (Num.of_Z 80)))%nat.
Proof.
  split; [reflexivity|]. apply getSLAClass_monotone. reflexivity.
Defined.

(** X22 on a bracket and on the entity that stands for it. *)
Lemma bracket_and_its_entity :
  "<" ≠ "&lt;"
  ∧ escapeHtml (H := ExampleHost.utc) (PStr "<")
    ≠ escapeHtml (H := ExampleHost.utc) (PStr "&lt;").
Proof. split; [done|]. by apply escapeHtml_injective. Defined.

